(** * Housing_Project: name and identifier reconciliation ([code/functions.py])

    A shallow embedding of the three reconciliation functions of
    [functions.py] and the properties stated about them:

    - [normalize_name]   (the name canonicalizer),
    - [similarity_score] (the fuzzy match suggester),
    - [update_istat]     (the identifier resolver, with its inner
                          [resolve_code] chain follower),

    and of two of its helpers, [add_zeroes] (zero padding of codes) and
    [merge_xlsx] (loading the sheets of a workbook).  [variability] works
    on floating-point statistics and is left out.

    Python dictionaries and sets are stdpp's [gmap] and [gset]; a [while]
    loop takes fuel and answers [None] when the fuel runs out; a Python
    exception is the [Raise] case of a result type.  Library calls whose
    tables or arithmetic are not part of this repository (the unidecode
    tables, the Unicode case tables, the rapidfuzz scorer, the sort of
    pandas) are variables of the sections that use them. *)

From Stdlib Require Import NArith ZArith Ascii String.
From stdpp Require Import gmap strings list fin_maps fin_sets pretty.

Open Scope string_scope.
Open Scope list_scope.

(** * Part I: the program *)

(** ** Python results and exceptions *)

Module Py.

(** The two exceptions the modelled code can raise. *)
Inductive exn :=
  | TypeError   (* unpacking [None] into [match, score, _] *)
  | KeyError.   (* [sort_values] by a column the frame does not have *)

Inductive result (A : Type) :=
  | Return (a : A)
  | Raise (e : exn).
Arguments Return {A} a.
Arguments Raise {A} e.

#[global] Instance result_ret : MRet result := λ A a, Return a.
#[global] Instance result_bind : MBind result := λ A B f m,
  match m with
  | Return a => f a
  | Raise e => Raise e
  end.

Definition raises {A} (m : result A) : Prop := ∃ e, m = Raise e.

End Py.
Import Py.

(** ** pandas: [Series.unique] *)

(** [col.unique()]: the distinct values of a column, in order of first
    appearance. *)
Fixpoint unique_from (seen : gset string) (col : list string) : list string :=
  match col with
  | [] => []
  | c :: rest =>
      if decide (c ∈ seen) then unique_from seen rest
      else c :: unique_from ({[c]} ∪ seen) rest
  end.

Definition unique (col : list string) : list string := unique_from ∅ col.

(** ** Name canonicalizer: [normalize_name] *)

Module Canonicalizer.

(** A Python [str] is a sequence of Unicode code points. *)
Abbreviation str := (list N).

(** An ASCII literal as a [str]. *)
Definition text (s : string) : str := N_of_ascii <$> list_ascii_of_string s.

(** The argument of [normalize_name]: a missing value ([None], [NaN]),
    for which [pd.isnull] holds, or a text. *)
Inductive name_arg :=
  | Null
  | Text (name : str).

Definition is_ascii (c : N) : bool := (c <? 128)%N.

(** [str.isspace] of one code point (CPython's [_PyUnicode_IsWhitespace]). *)
Definition is_space (c : N) : bool :=
  ((9 <=? c) && (c <=? 13) || (28 <=? c) && (c <=? 32)
   || (c =? 133) || (c =? 160) || (c =? 5760)
   || (8192 <=? c) && (c <=? 8202)
   || (c =? 8232) || (c =? 8233) || (c =? 8239) || (c =? 8287)
   || (c =? 12288))%N.

(** [string.punctuation]: the 32 ASCII punctuation characters, which are the
    code points 33-47, 58-64, 91-96 and 123-126. *)
Definition punctuation : list N :=
  N.of_nat <$> seq 33 15 ++ seq 58 7 ++ seq 91 6 ++ seq 123 4.

Definition is_punctuation (c : N) : bool := bool_decide (c ∈ punctuation).

(** [c.lower()] for an ASCII code point. *)
Definition ascii_lower (c : N) : N :=
  if ((65 <=? c) && (c <=? 90))%N then (c + 32)%N else c.

(** [name.lstrip()], [name.rstrip()] and [name.strip()] without argument. *)
Fixpoint lstrip (s : str) : str :=
  match s with
  | [] => []
  | c :: rest => if is_space c then lstrip rest else s
  end.

Definition rstrip (s : str) : str := reverse (lstrip (reverse s)).

Definition strip (s : str) : str := rstrip (lstrip s).

(** [name.translate(str.maketrans('', '', string.punctuation))]: every
    character of [string.punctuation] is mapped to [None], that is deleted. *)
Definition remove_punctuation (s : str) : str :=
  filter (λ c, is_punctuation c = false) s.

Section WithTables.

(** The replacement unidecode's tables hold for a code point from 0x80
    on, [None] where they hold none. *)
Variable unidecode_table : N → option str.

(** [str.lower] on a text that is not pure ASCII (the Unicode case
    tables). *)
Variable unicode_lower : str → str.

(** unidecode's [_get_repl_str]; a character without replacement is
    dropped (the default [errors='ignore']). *)
Definition get_repl_str (c : N) : str :=
  if (c <? 128)%N then [c]
  else if (983039 <? c)%N then []
  else default [] (unidecode_table c).

(** [unidecode.unidecode]: a text that encodes to ASCII is returned as it
    is, any other is replaced character by character. *)
Definition unidecode (s : str) : str :=
  if forallb is_ascii s then s else s ≫= get_repl_str.

(** [name.lower()]. *)
Definition lower (s : str) : str :=
  if forallb is_ascii s then ascii_lower <$> s else unicode_lower s.

Definition normalize_name (arg : name_arg) : str :=
  match arg with
  | Null => []
  | Text name =>
      let name := unidecode name in           (* Remove accents *)
      let name := lower name in               (* Lowercase *)
      let name := strip name in               (* Remove whitespace *)
      let name := remove_punctuation name in  (* Remove punctuation *)
      name
  end.

End WithTables.

(** A fragment of unidecode's table for the Latin-1 letters with a grave
    accent, and a case table that leaves other texts alone: the tables the
    examples below are evaluated with. *)
Definition grave_table (c : N) : option str :=
  if (c =? 192)%N then Some (text "A")
  else if (c =? 200)%N then Some (text "E")
  else if (c =? 224)%N then Some (text "a")
  else if (c =? 232)%N then Some (text "e")
  else None.

Definition no_case_table (s : str) : str := s.

(** Texts of ASCII characters only, without upper-case ASCII letter, and
    without punctuation character. *)
Definition ascii_only (s : str) : Prop := Forall (λ c, is_ascii c = true) s.

Definition lowercase (s : str) : Prop := Forall (λ c, ascii_lower c = c) s.

Definition punctuation_free (s : str) : Prop :=
  Forall (λ c, is_punctuation c = false) s.

(** The tables of unidecode hold ASCII replacements only. *)
Definition ascii_table (table : N → option str) : Prop :=
  ∀ c s, table c = Some s → ascii_only s.

(** The name of the example, with its accented letter (code point 224). *)
Definition citta_d_aosta : str := text "Citt" ++ [224%N] ++ text " d'Aosta!".

End Canonicalizer.

(** ** Fuzzy match suggester: [similarity_score] *)

Module Suggester.

Section WithScorer.

(** The similarity scores of rapidfuzz, with [fuzz.WRatio] and the
    comparison [>] on scores. *)
Variable Score : Type.
Variable WRatio : string → string → Score.
Variable score_gt : Score → Score → bool.

(** One row of the suggestion table. *)
Record suggestion := mk_suggestion {
  name_in_df1 : string;
  name_in_df2 : string;
  similarity : Score
}.

(** [DataFrame.sort_values(by, ascending=False)] on the rows of a frame
    that has the column. *)
Variable sort_descending : list suggestion → list suggestion.

(** [process.extractOne(query, choices, scorer)]: the choices are scored
    in iteration order and a choice replaces the best one so far only
    with a strictly greater score; [None] when there is no choice. *)
Fixpoint extractOne_from (best : option (string * Score * nat))
    (query : string) (key : nat) (choices : list string)
    : option (string * Score * nat) :=
  match choices with
  | [] => best
  | choice :: rest =>
      let score := WRatio query choice in
      let best' :=
        match best with
        | None => Some (choice, score, key)
        | Some (_, top, _) =>
            if score_gt score top then Some (choice, score, key) else best
        end in
      extractOne_from best' query (S key) rest
  end.

Definition extractOne (query : string) (choices : list string)
    : option (string * Score * nat) :=
  extractOne_from None query 0 choices.

(** The loop [for name in unmatched], appending one row per name.
    [match, score, _ = None] raises a [TypeError]. *)
Fixpoint build_rows (names_df2 : list string) (unmatched : list string)
    (rows : list suggestion) : result (list suggestion) :=
  match unmatched with
  | [] => Return rows
  | name :: rest =>
      match extractOne name names_df2 with
      | None => Raise TypeError
      | Some (match_, score, _) =>
          build_rows names_df2 rest
            (rows ++ [mk_suggestion name match_ score])
      end
  end.

(** The columns of [pd.DataFrame(rows)] for a list of row dictionaries:
    the keys of the rows, so none for the empty list. *)
Definition columns (rows : list suggestion) : list string :=
  match rows with
  | [] => []
  | _ :: _ => ["Name in df1"; "Name in df2"; "Similarity score (0-100)"]
  end.

(** [pd.DataFrame(rows).sort_values(by, ascending = False)]: a [KeyError]
    when the frame has no column [by]. *)
Definition sort_values (by_ : string) (rows : list suggestion)
    : result (list suggestion) :=
  if decide (by_ ∈ columns rows) then Return (sort_descending rows)
  else Raise KeyError.

(** [similarity_score(df1, df2, col)], on the two columns [df1[col]] and
    [df2[col]]. *)
Definition similarity_score (col1 col2 : list string)
    : result (list suggestion) :=
  let names_df1 := unique col1 in
  let names_df2 := unique col2 in
  let unmatched := filter (λ name, name ∉ names_df2) names_df1 in
  rows ← build_rows names_df2 unmatched [];
  sort_values "Similarity score (0-100)" rows.

End WithScorer.

Arguments mk_suggestion {Score}.
Arguments name_in_df1 {Score}.
Arguments name_in_df2 {Score}.
Arguments similarity {Score}.

(** A scorer and a sort to evaluate the examples with: the score is the
    length of the common prefix, the sort is an insertion sort. *)
Fixpoint common_prefix (a b : list ascii) : nat :=
  match a, b with
  | x :: a', y :: b' => if decide (x = y) then S (common_prefix a' b') else 0
  | _, _ => 0
  end.

Definition prefix_score (a b : string) : nat :=
  common_prefix (list_ascii_of_string a) (list_ascii_of_string b).

Definition nat_gt (a b : nat) : bool := bool_decide (b < a).

Fixpoint insert_descending (r : suggestion nat) (l : list (suggestion nat))
    : list (suggestion nat) :=
  match l with
  | [] => [r]
  | x :: rest =>
      if nat_gt (similarity x) (similarity r) then x :: insert_descending r rest
      else r :: l
  end.

Definition insertion_sort (l : list (suggestion nat)) : list (suggestion nat) :=
  foldr insert_descending [] l.

End Suggester.

(** ** Identifier resolver: [update_istat] *)

Module Resolver.

(** The triple stored in [resolved[code]]:
    (updated code, changed, suppressed). *)
Record record := mk_record {
  updated : string;
  changed : bool;
  suppressed : bool
}.

#[global] Instance record_eq_dec : EqDecision record.
Proof. solve_decision. Defined.

(** [df_map.set_index(istat_old)[istat_new].to_dict()]: rows are read top
    to bottom, a later row with the same old code replaces an earlier one. *)
Definition to_dict (rows : list (string * string)) : gmap string string :=
  foldl (λ m row, <[row.1 := row.2]> m) ∅ rows.

(** The [while] loop of [resolve_code].  One unit of fuel pays for one
    evaluation of the loop condition
    [current in mapping and current not in visited], that is for one lookup
    of [current] in [mapping].  The answer carries the value returned and
    the number of condition evaluations made. *)
Fixpoint resolve_loop (fuel : nat) (mapping : gmap string string)
    (visited : gset string) (current : string) : option (string * nat) :=
  match fuel with
  | O => None
  | S fuel' =>
      match mapping !! current with
      | Some next =>
          if decide (current ∈ visited) then Some (current, 1)
          else
            match resolve_loop fuel' mapping ({[current]} ∪ visited) next with
            | Some (final, steps) => Some (final, S steps)
            | None => None
            end
      | None => Some (current, 1)
      end
  end.

(** The keys of the mapping not visited yet: the variant of the loop. *)
Definition unvisited (mapping : gmap string string) (visited : gset string)
    : gset string :=
  dom mapping ∖ visited.

(** [resolve_code(code)]: [visited = set()], [current = code], then the
    loop. *)
Definition resolve_code_in (fuel : nat) (mapping : gmap string string)
    (code : string) : option (string * nat) :=
  resolve_loop fuel mapping ∅ code.

(** [resolve_code] with the fuel that always suffices: one condition
    evaluation per key of the mapping and the one that leaves the loop. *)
Definition resolve_code (mapping : gmap string string) (code : string)
    : option string :=
  fst <$> resolve_code_in (S (size mapping)) mapping code.

(** The body of [for code in unique]: the triple stored at
    [resolved[code]]. *)
Definition resolve_entry (mapping : gmap string string)
    (valid_set : gset string) (code : string) : option record :=
  if decide (code ∈ valid_set) then Some (mk_record code false false)
  else
    final ← resolve_code mapping code;
    if decide (final ≠ code) then Some (mk_record final true false)
    else Some (mk_record code false true).

(** The loop [for code in unique: resolved[code] = ...]. *)
Fixpoint resolve_all (mapping : gmap string string) (valid_set : gset string)
    (codes : list string) (resolved : gmap string record)
    : option (gmap string record) :=
  match codes with
  | [] => Some resolved
  | code :: rest =>
      r ← resolve_entry mapping valid_set code;
      resolve_all mapping valid_set rest (<[code := r]> resolved)
  end.

(** The dictionary [resolved] at the end of the loop, from [resolved = {}]:
    the mapping from identifier to resolution record. *)
Definition resolve (identifiers : list string) (mapping : gmap string string)
    (valid_set : gset string) : option (gmap string record) :=
  resolve_all mapping valid_set (unique identifiers) ∅.

(** [update_istat]: the three new columns, row by row.
    [df[istat_col].map(resolved)] looks every row's code up in [resolved];
    [pd.DataFrame(triples.tolist(), index=df.index)] has the columns 0, 1
    and 2 of the triples, and no column when the frame has no row, so that
    [out[0]] then raises a [KeyError]. *)
Definition update_istat (col : list string) (df_map : list (string * string))
    (valid_codes : list string) : option (result (list (option record))) :=
  resolved ← resolve col (to_dict df_map) (list_to_set valid_codes);
  let triples := (λ code, resolved !! code) <$> col in
  Some (match triples with
        | [] => Raise KeyError
        | _ :: _ => Return triples
        end).

(** The three lifecycle states of an identifier, read off its record. *)
Definition is_valid (valid_set : gset string) (code : string) (r : record)
    : Prop :=
  changed r = false ∧ suppressed r = false ∧ updated r = code
  ∧ code ∈ valid_set.

Definition is_changed (r : record) : Prop := changed r = true.

Definition is_suppressed (r : record) : Prop := suppressed r = true.

Definition exactly_one (P Q R : Prop) : Prop :=
  (P ∧ ¬ Q ∧ ¬ R) ∨ (¬ P ∧ Q ∧ ¬ R) ∨ (¬ P ∧ ¬ Q ∧ R).

(** The supersession maps of the examples: a two-element cycle, and a chain
    from A over B to C. *)
Definition cycle_map : gmap string string := {["X" := "Y"; "Y" := "X"]}.

Definition chain_map : gmap string string := {["A" := "B"; "B" := "C"]}.

Definition nothing_valid : gset string := ∅.

End Resolver.

(** ** Zero padding: [add_zeroes] *)

Module Formatter.
Import Canonicalizer.

(** A cell of the frame: a text or an integer (a code read as a number). *)
Inductive value :=
  | PyStr (s : str)
  | PyInt (z : Z).

(** [str(x)]. *)
Definition str_of (x : value) : str :=
  match x with
  | PyStr s => s
  | PyInt z => text (pretty z)
  end.

(** The characters [+] (43) and [-] (45), and [0] (48). *)
Definition is_sign (c : N) : bool := ((c =? 43) || (c =? 45))%N.

Definition zero : N := 48%N.

(** [s.zfill(width)]: a text of [width] characters or more is returned as
    it is; otherwise zeros are put in front, after a leading sign. *)
Definition zfill (width : Z) (s : str) : str :=
  let fill := (width - Z.of_nat (length s))%Z in
  if (fill <=? 0)%Z then s
  else
    match s with
    | c :: rest =>
        if is_sign c then c :: replicate (Z.to_nat fill) zero ++ rest
        else replicate (Z.to_nat fill) zero ++ s
    | [] => replicate (Z.to_nat fill) zero
    end.

(** [lambda x: str(x).zfill(length)]. *)
Definition pad (length : Z) (x : value) : value :=
  PyStr (zfill length (str_of x)).

(** The argument [column]: one name, or a list of names. *)
Inductive column_arg :=
  | Name (c : string)
  | Names (cs : list string).

(** [if isinstance(column, str): column = [column]]. *)
Definition column_list (column : column_arg) : list string :=
  match column with
  | Name c => [c]
  | Names cs => cs
  end.

(** The loop [for c in column: data[c] = data[c].apply(...)] on the frame
    [data], a dictionary from column name to cells.  It writes into the
    frame it was given: the answer is the frame as the loop leaves it, and
    the exception that stopped it, if any ([data[c]] of a name that is no
    column raises a [KeyError]). *)
Fixpoint pad_columns (length : Z) (cols : list string)
    (data : gmap string (list value))
    : gmap string (list value) * option exn :=
  match cols with
  | [] => (data, None)
  | c :: rest =>
      match data !! c with
      | None => (data, Some KeyError)
      | Some cells => pad_columns length rest (<[c := pad length <$> cells]> data)
      end
  end.

(** [add_zeroes(data, column, length)]: the frame after the call, and what
    the call returned (the same frame) or raised. *)
Definition add_zeroes (data : gmap string (list value)) (column : column_arg)
    (length : Z)
    : gmap string (list value) * result (gmap string (list value)) :=
  let '(data', stopped) := pad_columns length (column_list column) data in
  (data', match stopped with
          | None => Return data'
          | Some e => Raise e
          end).

(** A frame of the examples: codes read as numbers, and names. *)
Definition codes_frame : gmap string (list value) :=
  {["istat" := [PyInt 1001; PyInt 58091; PyStr (text "7")];
    "name" := [PyStr (text "Agli"); PyStr (text "Roma"); PyStr (text "Bra")]]}.

End Formatter.

(** ** Loading the sheets of a workbook: [merge_xlsx] *)

Module Workbook.

Section WithPandas.

(** The frames of pandas, the exceptions its calls raise, and the calls
    themselves: [pd.read_excel(file_path, sheet_name=year,
    skiprows=skiprows)], [df.drop(df.columns[cols_to_drop], axis=1,
    inplace=True)], [len(df.columns)], [df.columns = col_names],
    [df['year'] = year] and [pd.concat(df_list, ignore_index=True)]. *)
Variable Frame : Type.
Variable PandasError : Type.
Variable read_excel : string → string → nat → PandasError + Frame.
Variable drop_columns : Frame → list Z → PandasError + Frame.
Variable n_columns : Frame → nat.
Variable set_columns : Frame → list string → Frame.
Variable set_year : Frame → string → Frame.
Variable concat : list Frame → PandasError + Frame.

(** What the call can raise: an exception of pandas, or the
    [UnboundLocalError] of reading a local variable never assigned. *)
Inductive failure :=
  | Pandas (e : PandasError)
  | UnboundLocalError.

(** The lines printed. *)
Inductive message :=
  | Skipping (year : string) (actual_cols expected_cols : nat)
  | Combined (sheets : nat) (df_all : Frame)
  | NoValidSheets.

(** The first two statements of the loop body: load the sheet, drop the
    unwanted columns. *)
Definition load_sheet (file_path : string) (cols_to_drop : list Z)
    (skiprows : nat) (year : string) : PandasError + Frame :=
  match read_excel file_path year skiprows with
  | inl e => inl e
  | inr df => drop_columns df cols_to_drop
  end.

(** The loop [for year in sheets_to_process], from the [df_list] and the
    lines printed so far: a sheet with another number of columns than
    [col_names] is reported and skipped ([continue]), any other is renamed,
    gets its year and is appended. *)
Fixpoint load_sheets (file_path : string) (cols_to_drop : list Z)
    (col_names : list string) (skiprows : nat) (sheets : list string)
    (df_list : list Frame) (printed : list message)
    : list message * (PandasError + list Frame) :=
  match sheets with
  | [] => (printed, inr df_list)
  | year :: rest =>
      match load_sheet file_path cols_to_drop skiprows year with
      | inl e => (printed, inl e)
      | inr df =>
          let expected_cols := length col_names in
          let actual_cols := n_columns df in
          if decide (actual_cols ≠ expected_cols) then
            load_sheets file_path cols_to_drop col_names skiprows rest df_list
              (printed ++ [Skipping year actual_cols expected_cols])
          else
            let df := set_columns df col_names in
            let df := set_year df year in
            load_sheets file_path cols_to_drop col_names skiprows rest
              (df_list ++ [df]) printed
      end
  end.

(** [merge_xlsx]: the lines printed, and the frame returned or the
    exception raised.  [df_all] is assigned only when [df_list] is not
    empty; [return df_all] reads it in both cases. *)
Definition merge_xlsx (file_path : string) (sheets_to_process : list string)
    (cols_to_drop : list Z) (col_names : list string) (skiprows : nat)
    : list message * (failure + Frame) :=
  match load_sheets file_path cols_to_drop col_names skiprows
          sheets_to_process [] [] with
  | (printed, inl e) => (printed, inl (Pandas e))
  | (printed, inr df_list) =>
      match df_list with
      | _ :: _ =>
          match concat df_list with
          | inl e => (printed, inl (Pandas e))
          | inr df_all =>
              (printed ++ [Combined (length df_list) df_all], inr df_all)
          end
      | [] => (printed ++ [NoValidSheets], inl UnboundLocalError)
      end
  end.

(** The sheets that pass the validation step, each with its frame as it is
    appended to [df_list]; a sheet that cannot be loaded is none of them. *)
Definition valid_sheet (file_path : string) (cols_to_drop : list Z)
    (col_names : list string) (skiprows : nat) (year : string)
    : option Frame :=
  match load_sheet file_path cols_to_drop skiprows year with
  | inl _ => None
  | inr df =>
      if decide (n_columns df ≠ length col_names) then None
      else Some (set_year (set_columns df col_names) year)
  end.

(** The line printed for a sheet that is skipped. *)
Definition skip_message (file_path : string) (cols_to_drop : list Z)
    (col_names : list string) (skiprows : nat) (year : string)
    : option message :=
  match load_sheet file_path cols_to_drop skiprows year with
  | inl _ => None
  | inr df =>
      if decide (n_columns df ≠ length col_names)
      then Some (Skipping year (n_columns df) (length col_names))
      else None
  end.

End WithPandas.

Arguments Pandas {PandasError} e.
Arguments UnboundLocalError {PandasError}.
Arguments Skipping {Frame} year actual_cols expected_cols.
Arguments Combined {Frame} sheets df_all.
Arguments NoValidSheets {Frame}.

(** A workbook to evaluate the examples with: a frame is its list of column
    names; the sheet 2019 has three columns, the sheet 2020 has four, the
    sheet 2021 has two, and there is no other sheet. *)
Definition sample_read (file_path year : string) (skiprows : nat)
    : unit + list string :=
  if decide (year = "2019") then inr ["a"; "b"; "c"]
  else if decide (year = "2020") then inr ["a"; "b"; "c"; "d"]
  else if decide (year = "2021") then inr ["a"; "b"]
  else inl ().

Definition sample_drop (df : list string) (cols_to_drop : list Z)
    : unit + list string :=
  inr (drop (length cols_to_drop) df).

Definition sample_set_columns (df : list string) (col_names : list string)
    : list string := col_names.

Definition sample_set_year (df : list string) (year : string) : list string :=
  df ++ ["year"].

Definition sample_concat (df_list : list (list string)) : unit + list string :=
  inr (default [] (head df_list)).

End Workbook.

(** ** Walking the supersession chain *)

Module Walk.

(** The code reached from [code] after [n] lookups in the mapping, [None]
    when the chain ends before. *)
Fixpoint follow (mapping : gmap string string) (n : nat) (code : string)
    : option string :=
  match n with
  | O => Some code
  | S n' =>
      match mapping !! code with
      | Some next => follow mapping n' next
      | None => None
      end
  end.

(** [code] lies on a cycle of the mapping. *)
Definition on_cycle (mapping : gmap string string) (code : string) : Prop :=
  ∃ n, 0 < n ∧ follow mapping n code = Some code.

End Walk.

(** ** The order of the similarity scores *)

Module Scores.

(** What [>] is on scores that are numbers: irreflexive, transitive, and a
    score greater than another is greater than any third or the third is
    greater than the other. *)
Record strict_weak_order {A : Type} (gt : A → A → bool) : Prop := {
  gt_irrefl : ∀ a, gt a a = false;
  gt_trans : ∀ a b c, gt a b = true → gt b c = true → gt a c = true;
  gt_cotrans : ∀ a b c, gt a b = true → gt a c = true ∨ gt c b = true
}.

(** The candidate kept so far is the best of the choices seen, and the
    first of the best. *)
Definition best_of {Score : Type} (WRatio : string → string → Score)
    (score_gt : Score → Score → bool) (query : string) (seen : list string)
    (best : option (string * Score * nat)) : Prop :=
  match best with
  | None => seen = []
  | Some (choice, score, key) =>
      seen !! key = Some choice ∧ score = WRatio query choice
      ∧ (∀ c, c ∈ seen → score_gt (WRatio query c) score = false)
      ∧ (∀ (j : nat) c, (j < key)%nat → seen !! j = Some c →
           score_gt score (WRatio query c) = true)
  end.

End Scores.

(** ** [normalize_name] as Python calls it *)

Module Dynamic.
Import Canonicalizer.

(** What a cell handed to [normalize_name] can be: a missing value ([None]
    or the float [NaN]), a text, or a number that is no [NaN]. *)
Inductive py_value :=
  | PyNone
  | PyNaN
  | PyText (s : str)
  | PyInt (z : Z).

(** The exception of a call that needs a text and gets another value:
    [unidecode] encodes its argument, [lower], [strip] and [translate] are
    methods of a text. *)
Inductive py_exn :=
  | AttributeError.

(** [pd.isnull(name)] on one value. *)
Definition isnull (name : py_value) : bool :=
  match name with
  | PyNone | PyNaN => true
  | PyText _ | PyInt _ => false
  end.

(** A call that goes through for a text and raises for any other value. *)
Definition on_text (f : str → str) (name : py_value) : py_exn + py_value :=
  match name with
  | PyText s => inr (PyText (f s))
  | PyNone | PyNaN | PyInt _ => inl AttributeError
  end.

(** One statement [name = step(name)] after another: an exception ends the
    function. *)
Definition and_then (so_far : py_exn + py_value)
    (step : py_value → py_exn + py_value) : py_exn + py_value :=
  match so_far with
  | inl e => inl e
  | inr name => step name
  end.

Section WithTables.

Variable unidecode_table : N → option str.
Variable unicode_lower : str → str.

(** [normalize_name(name)], statement by statement, on any value. *)
Definition normalize_name_call (name : py_value) : py_exn + py_value :=
  if isnull name then inr (PyText [])
  else
    and_then (and_then (and_then
      (on_text (unidecode unidecode_table) name)   (* Remove accents *)
      (on_text (lower unicode_lower)))             (* Lowercase *)
      (on_text strip))                             (* Remove whitespace *)
      (on_text remove_punctuation).                (* Remove punctuation *)

End WithTables.

End Dynamic.

(** * Part II: the properties *)

(** ** [Series.unique] keeps exactly the values of the column *)

Lemma elem_of_unique_from (seen : gset string) (col : list string) (x : string) :
  x ∈ unique_from seen col ↔ x ∈ col ∧ x ∉ seen.
Proof.
  revert seen. induction col as [|c rest IH]; intros seen; simpl.
  - rewrite elem_of_nil. tauto.
  - destruct (decide (c ∈ seen)) as [Hin|Hout].
    + rewrite IH, elem_of_cons. split; [tauto|].
      intros [[->|Hrest] Hx]; tauto.
    + rewrite !elem_of_cons, IH, not_elem_of_union, not_elem_of_singleton.
      split; [intros [->|[Hrest [Hne Hx]]]; tauto|].
      intros [[->|Hrest] Hx]; [tauto|].
      destruct (decide (x = c)); tauto.
Qed.

Lemma elem_of_unique (col : list string) (x : string) :
  x ∈ unique col ↔ x ∈ col.
Proof.
  unfold unique. rewrite elem_of_unique_from.
  split; [tauto | intros Hx; split; [done | apply not_elem_of_empty]].
Qed.

(** ** The identifier resolver *)

Section ResolverProperties.
Import Resolver.

Implicit Types (mapping : gmap string string) (valid_set visited : gset string).
Implicit Types (code current final : string) (r : record).

Lemma unvisited_shrinks mapping visited current :
  is_Some (mapping !! current) → current ∉ visited →
  size (unvisited mapping ({[current]} ∪ visited))
  < size (unvisited mapping visited).
Proof.
  intros Hkey Hnew. apply elem_of_dom in Hkey.
  apply subset_size. unfold unvisited. split.
  - intros x. rewrite !elem_of_difference, not_elem_of_union. tauto.
  - intros Hsub. specialize (Hsub current).
    rewrite !elem_of_difference, not_elem_of_union,
      not_elem_of_singleton in Hsub. tauto.
Qed.

(** With more fuel than unvisited keys the loop returns, after at most
    one condition evaluation per unvisited key and one more. *)
Lemma resolve_loop_returns fuel mapping visited current :
  size (unvisited mapping visited) < fuel →
  ∃ final (steps : nat),
    resolve_loop fuel mapping visited current = Some (final, steps)
    ∧ (steps ≤ S (size (unvisited mapping visited)))%nat.
Proof.
  revert visited current.
  induction fuel as [|fuel IH]; intros visited current Hfuel; [lia|].
  simpl. destruct (mapping !! current) as [next|] eqn:Hlook.
  - destruct (decide (current ∈ visited)) as [Hseen|Hnew].
    + exists current, 1. split; [done | lia].
    + pose proof (unvisited_shrinks mapping visited current
                    (mk_is_Some _ _ Hlook) Hnew) as Hlt.
      destruct (IH ({[current]} ∪ visited) next) as (final & steps & -> & Hle);
        [lia|].
      exists final, (S steps). split; [done | lia].
  - exists current, 1. split; [done | lia].
Qed.

(** A loop that returned returns the same with more fuel. *)
Lemma resolve_loop_more_fuel fuel fuel' mapping visited current res :
  resolve_loop fuel mapping visited current = Some res → (fuel ≤ fuel')%nat →
  resolve_loop fuel' mapping visited current = Some res.
Proof.
  revert fuel' visited current res.
  induction fuel as [|fuel IH]; intros fuel' visited current res; [done|].
  destruct fuel' as [|fuel']; [lia|]. simpl. intros Hres Hle.
  destruct (mapping !! current) as [next|]; [|done].
  destruct (decide (current ∈ visited)); [done|].
  destruct (resolve_loop fuel mapping _ next) as [[final steps]|] eqn:Hrec;
    [|done].
  by rewrite (IH fuel' _ _ _ Hrec) by lia.
Qed.

Lemma resolve_code_in_returns mapping code :
  ∃ final (steps : nat),
    resolve_code_in (S (size mapping)) mapping code = Some (final, steps)
    ∧ (steps ≤ size mapping + 1)%nat.
Proof.
  destruct (resolve_loop_returns (S (size mapping)) mapping ∅ code)
    as (final & steps & Hres & Hle).
  - unfold unvisited. rewrite difference_empty_L, size_dom. lia.
  - exists final, steps. split; [done|].
    unfold unvisited in Hle. rewrite difference_empty_L, size_dom in Hle. lia.
Qed.

Lemma resolve_code_returns mapping code :
  ∃ final, resolve_code mapping code = Some final.
Proof.
  destruct (resolve_code_in_returns mapping code) as (final & steps & Hres & _).
  exists final. unfold resolve_code. by rewrite Hres.
Qed.

(** Every identifier gets a record, and the record is one of the three
    the loop body can store. *)
Lemma resolve_entry_cases mapping valid_set code :
  ∃ final, resolve_code mapping code = Some final ∧
    resolve_entry mapping valid_set code =
      Some (if decide (code ∈ valid_set) then mk_record code false false
            else if decide (final ≠ code) then mk_record final true false
            else mk_record code false true).
Proof.
  destruct (resolve_code_returns mapping code) as [final Hfinal].
  exists final. split; [done|]. unfold resolve_entry. rewrite Hfinal.
  simpl. by repeat case_decide.
Qed.

Lemma resolve_all_lookup mapping valid_set codes (acc : gmap string record) :
  ∃ resolved, resolve_all mapping valid_set codes acc = Some resolved ∧
    ∀ code, resolved !! code =
      if decide (code ∈ codes) then resolve_entry mapping valid_set code
      else acc !! code.
Proof.
  revert acc. induction codes as [|c rest IH]; intros acc; simpl.
  - exists acc. split; [done|]. intros code.
    destruct (decide (code ∈ [])) as [Hin|Hin]; [by apply elem_of_nil in Hin | done].
  - destruct (resolve_entry_cases mapping valid_set c) as (final & _ & Hentry).
    set (r := if decide (c ∈ valid_set) then _ else _) in Hentry.
    rewrite Hentry. simpl.
    destruct (IH (<[c := r]> acc)) as (resolved & -> & Hlook).
    exists resolved. split; [done|]. intros code. rewrite Hlook.
    destruct (decide (code ∈ rest)) as [Hrest|Hrest].
    + rewrite decide_True; [done | rewrite elem_of_cons; tauto].
    + destruct (decide (code = c)) as [->|Hne].
      * rewrite decide_True by (rewrite elem_of_cons; tauto).
        by rewrite lookup_insert_eq, Hentry.
      * rewrite decide_False by (rewrite elem_of_cons; tauto).
        by rewrite lookup_insert_ne.
Qed.

(** [resolve] returns a dictionary that holds, for each identifier of the
    column, the record of the loop body, and nothing else. *)
Lemma resolve_lookup identifiers mapping valid_set :
  ∃ resolved, resolve identifiers mapping valid_set = Some resolved ∧
    ∀ code, resolved !! code =
      if decide (code ∈ identifiers) then resolve_entry mapping valid_set code
      else None.
Proof.
  destruct (resolve_all_lookup mapping valid_set (unique identifiers) ∅)
    as (resolved & Hres & Hlook).
  exists resolved. split; [done|]. intros code. rewrite Hlook.
  repeat case_decide; try done; by rewrite elem_of_unique in *.
Qed.

(** Every row of the column receives the record of its code; a frame
    without rows makes the call raise. *)
Lemma update_istat_rows (col : list string) df_map valid_codes :
  update_istat col df_map valid_codes =
    Some (match col with
          | [] => Raise KeyError
          | _ :: _ =>
              Return (resolve_entry (to_dict df_map) (list_to_set valid_codes)
                        <$> col)
          end).
Proof.
  unfold update_istat.
  destruct (resolve_lookup col (to_dict df_map) (list_to_set valid_codes))
    as (resolved & -> & Hlook).
  simpl.
  assert ((λ code, resolved !! code) <$> col
          = resolve_entry (to_dict df_map) (list_to_set valid_codes) <$> col)
    as ->.
  { apply list_fmap_ext. intros i code Hcode.
    rewrite Hlook, decide_True; [done|]. by eapply list_elem_of_lookup_2. }
  by destruct col.
Qed.

(** The chain A -> B -> C with C valid: A is changed to C, C is valid, and
    a code that is neither valid nor a key is suppressed. *)
Example update_istat_chain :
  update_istat ["A"; "C"; "Q"; "A"] [("A", "B"); ("B", "C")] ["C"] =
    Some (Return
            [Some (mk_record "C" true false); Some (mk_record "C" false false);
             Some (mk_record "Q" false true); Some (mk_record "C" true false)]).
Proof. by vm_compute. Qed.

(** C1: for every identifier and every supersession map the chain
    resolution terminates: with fuel for |mapping|+1 evaluations of the
    loop condition (lookups of the current value in the mapping) the loop
    returns, it has made at most |mapping|+1 of them, and more fuel does
    not change the answer.  In particular, with the map X -> Y, Y -> X
    and an empty valid set, resolving X returns and the record of X is
    suppressed. *)
Theorem resolve_code_terminates :
  (∀ mapping code, ∃ final (steps : nat),
      resolve_code_in (S (size mapping)) mapping code = Some (final, steps)
      ∧ (steps ≤ size mapping + 1)%nat
      ∧ (∀ fuel, (size mapping + 1 ≤ fuel)%nat →
           resolve_code_in fuel mapping code = Some (final, steps))
      ∧ resolve_code mapping code = Some final)
  ∧ resolve_code cycle_map "X" = Some "X"
  ∧ ∃ resolved,
      resolve ["X"] cycle_map nothing_valid = Some resolved
      ∧ resolved !! "X" = Some (mk_record "X" false true).
Proof.
  split; [|split].
  - intros mapping code.
    destruct (resolve_code_in_returns mapping code)
      as (final & steps & Hres & Hle).
    exists final, steps. repeat split; [done | done | | ].
    + intros fuel Hfuel. unfold resolve_code_in in *.
      apply (resolve_loop_more_fuel (S (size mapping))); [done | lia].
    + unfold resolve_code. by rewrite Hres.
  - by vm_compute.
  - destruct (resolve_lookup ["X"] cycle_map nothing_valid)
      as (resolved & Hres & Hlook).
    exists resolved. split; [done|]. rewrite Hlook. by vm_compute.
Qed.

(** C2: for an identifier [code] outside the valid set whose chain ends
    at a terminus [final] different from [code], the record of [code] is
    (final, changed = true, suppressed = false).  Nothing is asked of
    [final]: whether it is in the valid set plays no role. *)
Theorem resolve_changed identifiers mapping valid_set code final :
  code ∈ identifiers → code ∉ valid_set →
  resolve_code mapping code = Some final → final ≠ code →
  ∃ resolved,
    resolve identifiers mapping valid_set = Some resolved
    ∧ resolved !! code = Some (mk_record final true false).
Proof.
  intros Hin Hinvalid Hfinal Hne.
  destruct (resolve_lookup identifiers mapping valid_set)
    as (resolved & Hres & Hlook).
  exists resolved. split; [done|].
  rewrite Hlook, decide_True by done.
  unfold resolve_entry. rewrite decide_False, Hfinal by done. simpl.
  by rewrite decide_True.
Qed.

(** At A, with the map A -> B and nothing valid: the terminus B is not a
    valid identifier, and the record of A is changed all the same. *)
Lemma resolve_changed_witness :
  "A" ∈ ["A"; "Q"] ∧ ("A" ∉ nothing_valid) ∧ ("B" ∉ nothing_valid)
  ∧ resolve_code {["A" := "B"]} "A" = Some "B" ∧ "B" ≠ "A"
  ∧ ∃ resolved,
      resolve ["A"; "Q"] {["A" := "B"]} nothing_valid = Some resolved
      ∧ resolved !! "A" = Some (mk_record "B" true false).
Proof.
  repeat split; try compute_done.
  apply (resolve_changed ["A"; "Q"] {["A" := "B"]} nothing_valid "A" "B");
    compute_done.
Defined.

(** C3: for an identifier [code] in the valid set the record is
    (code, changed = false, suppressed = false), whatever the supersession
    map holds, also an entry for [code]. *)
Theorem resolve_valid identifiers mapping valid_set code :
  code ∈ identifiers → code ∈ valid_set →
  ∃ resolved,
    resolve identifiers mapping valid_set = Some resolved
    ∧ resolved !! code = Some (mk_record code false false).
Proof.
  intros Hin Hvalid.
  destruct (resolve_lookup identifiers mapping valid_set)
    as (resolved & Hres & Hlook).
  exists resolved. split; [done|].
  rewrite Hlook, decide_True by done.
  unfold resolve_entry. by rewrite decide_True.
Qed.

(** At A, valid and also a key of the chain map. *)
Lemma resolve_valid_witness :
  "A" ∈ ["C"; "A"] ∧ "A" ∈ ({["A"; "C"]} : gset string)
  ∧ chain_map !! "A" = Some "B"
  ∧ ∃ resolved,
      resolve ["C"; "A"] chain_map {["A"; "C"]} = Some resolved
      ∧ resolved !! "A" = Some (mk_record "A" false false).
Proof.
  repeat split; try compute_done.
  apply (resolve_valid ["C"; "A"] chain_map {["A"; "C"]} "A"); compute_done.
Defined.

(** C4: the record of every identifier of the column has never both
    flags set, and exactly one of the three states holds: valid (both
    flags unset and the record holds the code itself, a member of the
    valid set), changed, suppressed. *)
Theorem resolve_exactly_one_state identifiers mapping valid_set code :
  code ∈ identifiers →
  ∃ resolved r,
    resolve identifiers mapping valid_set = Some resolved
    ∧ resolved !! code = Some r
    ∧ ¬ (changed r = true ∧ suppressed r = true)
    ∧ exactly_one (is_valid valid_set code r) (is_changed r)
        (is_suppressed r).
Proof.
  intros Hin.
  destruct (resolve_lookup identifiers mapping valid_set)
    as (resolved & Hres & Hlook).
  destruct (resolve_entry_cases mapping valid_set code)
    as (final & _ & Hentry).
  specialize (Hlook code). rewrite decide_True, Hentry in Hlook by done.
  eexists resolved, _. split; [done|]. split; [exact Hlook|].
  unfold exactly_one, is_valid, is_changed, is_suppressed.
  repeat case_decide; simpl; intuition congruence.
Qed.

Lemma resolve_exactly_one_state_witness :
  "X" ∈ ["C"; "X"]
  ∧ ∃ resolved r,
      resolve ["C"; "X"] cycle_map {["C"]} = Some resolved
      ∧ resolved !! "X" = Some r
      ∧ ¬ (changed r = true ∧ suppressed r = true)
      ∧ exactly_one (is_valid {["C"]} "X" r) (is_changed r)
          (is_suppressed r).
Proof.
  split; [compute_done|].
  apply (resolve_exactly_one_state ["C"; "X"] cycle_map {["C"]} "X").
  compute_done.
Defined.

End ResolverProperties.

(** ** The fuzzy match suggester *)

Section SuggesterProperties.
Import Suggester.

Variable Score : Type.
Variable WRatio : string → string → Score.
Variable score_gt : Score → Score → bool.
Variable sort_descending : list (suggestion Score) → list (suggestion Score).

Local Abbreviation extractOne_from := (extractOne_from Score WRatio score_gt).
Local Abbreviation extractOne := (extractOne Score WRatio score_gt).
Local Abbreviation build_rows := (build_rows Score WRatio score_gt).
Local Abbreviation sort_values := (sort_values Score sort_descending).
Local Abbreviation similarity_score :=
  (similarity_score Score WRatio score_gt sort_descending).

Implicit Types (col choices unmatched : list string).
Implicit Types (rows out : list (suggestion Score)).

(** The names of the first column without a verbatim match. *)
Local Abbreviation unmatched_of col1 col2 :=
  (filter (λ name, name ∉ unique col2) (unique col1)).

Lemma unmatched_nil (col1 col2 : list string) :
  unmatched_of col1 col2 = [] ↔ ∀ x, x ∈ col1 → x ∈ col2.
Proof.
  split.
  - intros Hnil x Hx. destruct (decide (x ∈ col2)) as [|Hout]; [done|].
    assert (x ∈ unmatched_of col1 col2) as Hin.
    { apply list_elem_of_filter. by rewrite !elem_of_unique. }
    rewrite Hnil in Hin. by apply elem_of_nil in Hin.
  - intros Hall. apply elem_of_nil_inv. intros x Hin.
    apply list_elem_of_filter in Hin as [Hout Hx].
    rewrite elem_of_unique in Hout, Hx. auto.
Qed.

(** Once there is a best choice there is one at the end. *)
Lemma extractOne_from_is_Some best query key choices :
  is_Some best → is_Some (extractOne_from best query key choices).
Proof.
  revert best key. induction choices as [|choice rest IH];
    intros best key [[[m top] k] ->]; simpl; [done|].
  apply IH. by destruct (score_gt _ top).
Qed.

Lemma extractOne_nil query : extractOne query [] = None.
Proof. done. Qed.

Lemma extractOne_is_Some query (names_df2 : list string) :
  names_df2 ≠ [] → is_Some (extractOne query names_df2).
Proof.
  destruct names_df2 as [|choice rest]; [done|]. intros _.
  unfold Suggester.extractOne. simpl. by apply extractOne_from_is_Some.
Qed.

(** What the loop returns: the rows it started from, then one row for
    each unmatched name, in order. *)
Lemma build_rows_Return (names_df2 : list string) unmatched rows out :
  build_rows names_df2 unmatched rows = Return out →
  ∃ new, out = rows ++ new ∧ name_in_df1 <$> new = unmatched.
Proof.
  revert rows. induction unmatched as [|name rest IH]; intros rows; simpl.
  - intros [= <-]. exists []. by rewrite app_nil_r.
  - destruct (extractOne name names_df2) as [[[m score] k]|]; [|done].
    intros (new & -> & Hnames)%IH.
    exists (mk_suggestion name m score :: new).
    by rewrite <- app_assoc, fmap_cons, Hnames.
Qed.

(** With a candidate to score against the loop returns. *)
Lemma build_rows_returns (names_df2 : list string) unmatched rows :
  names_df2 ≠ [] → ∃ out, build_rows names_df2 unmatched rows = Return out.
Proof.
  intros Hne. revert rows.
  induction unmatched as [|name rest IH]; intros rows; simpl; [by eexists|].
  destruct (extractOne_is_Some name names_df2 Hne) as [[[m score] k] ->].
  apply IH.
Qed.

(** Without a candidate the first unmatched name raises. *)
Lemma build_rows_no_candidate unmatched rows :
  build_rows [] unmatched rows =
    match unmatched with [] => Return rows | _ :: _ => Raise TypeError end.
Proof. by destruct unmatched. Qed.

Lemma unique_nil_inv col : unique col = [] → col = [].
Proof. by destruct col. Qed.

(** The failures of [similarity_score], all of them: a [TypeError] when
    the second column is empty and some name of the first is to be
    scored, a [KeyError] when no name of the first column is unmatched. *)
Lemma similarity_score_cases (col1 col2 : list string) :
  match unmatched_of col1 col2 with
  | [] => similarity_score col1 col2 = Raise KeyError
  | _ :: _ =>
      if decide (col2 = []) then similarity_score col1 col2 = Raise TypeError
      else ∃ out, similarity_score col1 col2 = Return out
  end.
Proof.
  unfold Suggester.similarity_score.
  destruct (unmatched_of col1 col2) as [|name rest] eqn:Hun; [done|].
  destruct (decide (col2 = [])) as [->|Hne]; [done|].
  assert (unique col2 ≠ []) as Hne' by (by intros ?%unique_nil_inv).
  destruct (build_rows_returns (unique col2) (name :: rest) [] Hne')
    as [out Hout].
  rewrite Hout. simpl.
  apply build_rows_Return in Hout as (new & -> & Hnames).
  destruct new as [|row new]; [done|]. simpl. unfold Suggester.sort_values.
  rewrite decide_True by compute_done. by eexists.
Qed.

(** The failures of [similarity_score], as a condition on its input: it
    raises exactly when the second column is empty or every name of the
    first column has a verbatim match. *)
Lemma similarity_score_raises_iff (col1 col2 : list string) :
  raises (similarity_score col1 col2) ↔
  col2 = [] ∨ ∀ x, x ∈ col1 → x ∈ col2.
Proof.
  pose proof (similarity_score_cases col1 col2) as Hcases.
  pose proof (unmatched_nil col1 col2) as Hnil.
  destruct (unmatched_of col1 col2) as [|name rest].
  - split; [intros _; right; by apply Hnil | by exists KeyError].
  - destruct (decide (col2 = [])) as [->|Hne].
    + split; [by left | by exists TypeError].
    + destruct Hcases as [out Hout]. rewrite Hout. split.
      * by intros [e ?].
      * intros [?|Hall]; [done|]. by apply Hnil in Hall.
Qed.

(** C5, as the code has it: with an empty second column and a name in the
    first to find a candidate for, [similarity_score] fails, and the
    failure is the [TypeError] of unpacking the [None] that [extractOne]
    answers; the code has no exception of its own for it. *)
Theorem similarity_score_no_candidate (col1 : list string) :
  col1 ≠ [] → similarity_score col1 [] = Raise TypeError.
Proof.
  intros Hne. pose proof (similarity_score_cases col1 []) as Hcases.
  destruct (unmatched_of col1 []) as [|name rest] eqn:Hun; [|done].
  destruct col1 as [|x col1]; [done|].
  pose proof (proj1 (unmatched_nil (x :: col1) []) Hun x) as Hx.
  rewrite elem_of_cons, elem_of_nil in Hx. tauto.
Qed.

(** C10: when the second column is not empty and every name of the first
    column appears verbatim in it, there is no unmatched name, the frame
    built from the empty list of rows has no column, and sorting it by
    the score column raises a [KeyError]: no empty table is returned. *)
Theorem similarity_score_all_matched_raises (col1 col2 : list string) :
  col2 ≠ [] → (∀ x, x ∈ col1 → x ∈ col2) →
  similarity_score col1 col2 = Raise KeyError.
Proof.
  intros _ Hall. pose proof (similarity_score_cases col1 col2) as Hcases.
  by rewrite (proj2 (unmatched_nil col1 col2) Hall) in Hcases.
Qed.

Section Sorted.

(** Sorting a frame rearranges its rows. *)
Hypothesis sort_descending_perm : ∀ rows, sort_descending rows ≡ₚ rows.

Lemma similarity_score_Return (col1 col2 : list string) out :
  similarity_score col1 col2 = Return out →
  name_in_df1 <$> out ≡ₚ unmatched_of col1 col2.
Proof.
  unfold Suggester.similarity_score.
  destruct (build_rows _ _ _) as [rows|e] eqn:Hrows; [|done]. simpl.
  unfold Suggester.sort_values. case_decide; [|done]. intros [= <-].
  apply build_rows_Return in Hrows as (new & -> & <-).
  by rewrite sort_descending_perm.
Qed.

(** C6: a name that appears verbatim in the second column is the source
    of no row of the table returned; every row returned is for a name
    of the first column that is absent from the second. *)
Theorem no_suggestion_for_exact_match (col1 col2 : list string) out x :
  similarity_score col1 col2 = Return out → x ∈ col2 →
  (∀ row, row ∈ out → name_in_df1 row ≠ x)
  ∧ (∀ row, row ∈ out →
       name_in_df1 row ∈ col1 ∧ name_in_df1 row ∉ col2).
Proof.
  intros Hout%similarity_score_Return Hx.
  assert (∀ row, row ∈ out →
            name_in_df1 row ∈ col1 ∧ name_in_df1 row ∉ col2) as Hrows.
  { intros row Hrow.
    apply (list_elem_of_fmap_2 name_in_df1) in Hrow.
    rewrite Hout in Hrow.
    apply list_elem_of_filter in Hrow as [Hno Hin].
    by rewrite elem_of_unique in Hno, Hin. }
  split; [|done]. intros row Hrow Heq. subst x.
  by destruct (Hrows row Hrow) as [_ []].
Qed.

End Sorted.

End SuggesterProperties.

Lemma insert_descending_perm r l :
  Suggester.insert_descending r l ≡ₚ r :: l.
Proof.
  induction l as [|x rest IH]; simpl; [done|].
  destruct (Suggester.nat_gt _ _); [|done].
  rewrite IH. apply Permutation_swap.
Qed.

Lemma insertion_sort_perm l : Suggester.insertion_sort l ≡ₚ l.
Proof.
  induction l as [|r rest IH]; simpl; [done|].
  by rewrite insert_descending_perm, IH.
Qed.

(** bologna has a verbatim match and gets no row; bolognia has none and
    gets one. *)
Lemma no_suggestion_for_exact_match_witness :
  Suggester.similarity_score nat Suggester.prefix_score Suggester.nat_gt
    Suggester.insertion_sort ["bologna"; "bolognia"] ["bologna"; "milano"]
  = Return [Suggester.mk_suggestion "bolognia" "bologna" 6]
  ∧ "bologna" ∈ ["bologna"; "milano"]
  ∧ (∀ row, row ∈ [Suggester.mk_suggestion "bolognia" "bologna" 6] →
       Suggester.name_in_df1 row ≠ "bologna")
  ∧ (∀ row, row ∈ [Suggester.mk_suggestion "bolognia" "bologna" 6] →
       Suggester.name_in_df1 row ∈ ["bologna"; "bolognia"]
       ∧ Suggester.name_in_df1 row ∉ ["bologna"; "milano"]).
Proof.
  split; [compute_done|]. split; [compute_done|].
  apply (no_suggestion_for_exact_match nat Suggester.prefix_score
           Suggester.nat_gt Suggester.insertion_sort insertion_sort_perm
           ["bologna"; "bolognia"] ["bologna"; "milano"]);
    compute_done.
Defined.

(** C5, as stated, fails at bologna against bologna and milano: there are
    candidates, and the call fails all the same. *)
Lemma similarity_score_fails_with_candidates :
  ["bologna"; "milano"] ≠ []
  ∧ Suggester.similarity_score nat Suggester.prefix_score Suggester.nat_gt
      Suggester.insertion_sort ["bologna"] ["bologna"; "milano"]
    = Raise KeyError.
Proof. split; [done | reflexivity]. Qed.

Lemma similarity_score_no_candidate_witness :
  ["bolognia"; "milano"] ≠ []
  ∧ Suggester.similarity_score nat Suggester.prefix_score Suggester.nat_gt
      Suggester.insertion_sort ["bolognia"; "milano"] []
    = Raise TypeError.
Proof.
  split; [done|].
  apply (similarity_score_no_candidate nat Suggester.prefix_score
           Suggester.nat_gt Suggester.insertion_sort ["bolognia"; "milano"]).
  done.
Defined.

Lemma similarity_score_all_matched_raises_witness :
  ["bologna"; "milano"] ≠ []
  ∧ (∀ x, x ∈ ["milano"; "milano"] → x ∈ ["bologna"; "milano"])
  ∧ Suggester.similarity_score nat Suggester.prefix_score Suggester.nat_gt
      Suggester.insertion_sort ["milano"; "milano"] ["bologna"; "milano"]
    = Raise KeyError.
Proof.
  assert (∀ x, x ∈ ["milano"; "milano"] → x ∈ ["bologna"; "milano"]) as Hall.
  { intros x Hx.
    repeat (apply elem_of_cons in Hx as [->|Hx]; [compute_done|]).
    by apply elem_of_nil in Hx. }
  split; [done|]. split; [exact Hall|].
  apply (similarity_score_all_matched_raises nat Suggester.prefix_score
           Suggester.nat_gt Suggester.insertion_sort
           ["milano"; "milano"] ["bologna"; "milano"]); [done | exact Hall].
Defined.

(** ** The name canonicalizer *)

Section CanonicalizerProperties.
Import Canonicalizer.

Variable unidecode_table : N → option str.
Variable unicode_lower : str → str.

Local Abbreviation unidecode := (unidecode unidecode_table).
Local Abbreviation lower := (lower unicode_lower).
Local Abbreviation normalize_name :=
  (normalize_name unidecode_table unicode_lower).

Implicit Types (s name : str) (c : N).

Lemma forallb_is_ascii s : forallb is_ascii s = true ↔ ascii_only s.
Proof.
  unfold ascii_only. induction s as [|c s IH]; simpl.
  - split; [constructor | done].
  - rewrite andb_true_iff, Forall_cons, IH. tauto.
Qed.

Lemma unidecode_of_ascii s : ascii_only s → unidecode s = s.
Proof.
  intros Hs%forallb_is_ascii. unfold Canonicalizer.unidecode. by rewrite Hs.
Qed.

Lemma lower_of_ascii s : ascii_only s → lower s = ascii_lower <$> s.
Proof.
  intros Hs%forallb_is_ascii. unfold Canonicalizer.lower. by rewrite Hs.
Qed.

Lemma ascii_lower_ascii c : is_ascii c = true → is_ascii (ascii_lower c) = true.
Proof.
  unfold is_ascii, ascii_lower. intros Hc%N.ltb_lt.
  destruct ((65 <=? c) && (c <=? 90))%N eqn:Hup; apply N.ltb_lt; [|done].
  apply andb_true_iff in Hup as [_ Hle%N.leb_le]. lia.
Qed.

Lemma ascii_lower_idemp c : ascii_lower (ascii_lower c) = ascii_lower c.
Proof.
  unfold ascii_lower.
  destruct ((65 <=? c) && (c <=? 90))%N eqn:Hup; [|by rewrite Hup].
  apply andb_true_iff in Hup as [Hge%N.leb_le _].
  replace (c + 32 <=? 90)%N with false; [by rewrite andb_false_r|].
  symmetry. apply N.leb_gt. lia.
Qed.

(** Lower-casing an ASCII text leaves an ASCII text without upper case. *)
Lemma lower_shape s :
  ascii_only s → ascii_only (lower s) ∧ lowercase (lower s).
Proof.
  intros Hs. rewrite (lower_of_ascii s Hs).
  unfold ascii_only, lowercase in *. rewrite !Forall_fmap. split.
  - eapply Forall_impl; [exact Hs|]. intros c. apply ascii_lower_ascii.
  - apply Forall_true. intros c. apply ascii_lower_idemp.
Qed.

Lemma lower_of_lowercase s : ascii_only s → lowercase s → lower s = s.
Proof.
  intros Hs Hlow. rewrite (lower_of_ascii s Hs).
  induction Hlow as [|c s Hc _ IH]; [done|].
  apply Forall_cons in Hs as [_ Hs]. by rewrite fmap_cons, Hc, IH.
Qed.

(** Stripping and deleting only take characters away. *)
Lemma Forall_lstrip (P : N → Prop) s : Forall P s → Forall P (lstrip s).
Proof.
  induction 1 as [|c s Hc Hs IH]; simpl; [done|].
  destruct (is_space c); [done | by constructor].
Qed.

Lemma Forall_strip (P : N → Prop) s : Forall P s → Forall P (strip s).
Proof.
  intros Hs. unfold strip, rstrip.
  by apply Forall_reverse, Forall_lstrip, Forall_reverse, Forall_lstrip.
Qed.

Lemma Forall_remove_punctuation (P : N → Prop) s :
  Forall P s → Forall P (remove_punctuation s).
Proof.
  rewrite !Forall_forall. intros Hs c [_ Hc]%list_elem_of_filter. auto.
Qed.

Lemma remove_punctuation_free s : punctuation_free (remove_punctuation s).
Proof.
  apply Forall_forall. by intros c [Hc _]%list_elem_of_filter.
Qed.

Lemma remove_punctuation_of_free s :
  punctuation_free s → remove_punctuation s = s.
Proof.
  unfold remove_punctuation.
  induction 1 as [|c s Hc _ IH]; [done|].
  by rewrite filter_cons_True, IH.
Qed.

(** The steps in the order the function applies them. *)
Lemma normalize_name_steps name :
  normalize_name (Text name) =
    remove_punctuation (strip (lower (unidecode name))).
Proof. done. Qed.

(** Whatever the tables hold: the mark of [a !] goes after the
    stripping, so the space before it stays, and a second call strips
    it. *)
Lemma normalize_name_trailing_space :
  normalize_name (Text (text "a !")) = text "a "
  ∧ normalize_name (Text (text "a ")) = text "a".
Proof. split; reflexivity. Qed.

(** C9: the accents are stripped first, then the case is folded, then
    (after the stripping of outer whitespace) the punctuation is removed;
    with a table that holds the letter a for the a with grave accent,
    the name [Citta d'Aosta!], written with that accent, becomes
    [citta daosta]. *)
Theorem normalize_name_order :
  unidecode_table 224%N = Some (text "a") →
  (∀ name, normalize_name (Text name) =
             remove_punctuation (strip (lower (unidecode name))))
  ∧ normalize_name (Text citta_d_aosta) = text "citta daosta".
Proof.
  intros Hgrave. split; [done|]. rewrite normalize_name_steps.
  assert (unidecode citta_d_aosta = text "Citta d'Aosta!") as ->;
    [|reflexivity].
  vm_compute. rewrite Hgrave. reflexivity.
Qed.

Section AsciiTables.

Hypothesis table_is_ascii : ascii_table unidecode_table.

Lemma get_repl_str_ascii c :
  ascii_only (Canonicalizer.get_repl_str unidecode_table c).
Proof.
  unfold Canonicalizer.get_repl_str.
  destruct (c <? 128)%N eqn:Hc; [by repeat constructor|].
  destruct (983039 <? c)%N; [constructor|].
  destruct (unidecode_table c) as [s|] eqn:Hs; [|constructor].
  by apply (table_is_ascii c).
Qed.

Lemma unidecode_ascii s : ascii_only (unidecode s).
Proof.
  unfold Canonicalizer.unidecode.
  destruct (forallb is_ascii s) eqn:Hs; [by apply forallb_is_ascii|].
  apply Forall_bind, Forall_true. intros c. apply get_repl_str_ascii.
Qed.

(** A canonical name is ASCII, without upper case and punctuation. *)
Lemma normalize_name_shape name :
  ascii_only (normalize_name (Text name))
  ∧ lowercase (normalize_name (Text name))
  ∧ punctuation_free (normalize_name (Text name)).
Proof.
  rewrite normalize_name_steps.
  destruct (lower_shape (unidecode name) (unidecode_ascii name))
    as [Hascii Hlow].
  split; [|split].
  - by apply Forall_remove_punctuation, Forall_strip.
  - by apply Forall_remove_punctuation, Forall_strip.
  - apply remove_punctuation_free.
Qed.

(** On such a text only the stripping is left to do. *)
Lemma normalize_name_of_canonical s :
  ascii_only s → lowercase s → punctuation_free s →
  normalize_name (Text s) = strip s.
Proof.
  intros Hascii Hlow Hfree. rewrite normalize_name_steps.
  rewrite (unidecode_of_ascii s Hascii), (lower_of_lowercase s Hascii Hlow).
  by apply remove_punctuation_of_free, Forall_strip.
Qed.

(** C7, as the code has it: a second call strips the outer whitespace
    of the canonical name and does nothing else, so it changes nothing
    exactly when the canonical name has no outer whitespace. *)
Theorem normalize_name_twice name :
  normalize_name (Text (normalize_name (Text name)))
  = strip (normalize_name (Text name))
  ∧ (normalize_name (Text (normalize_name (Text name)))
     = normalize_name (Text name)
     ↔ strip (normalize_name (Text name)) = normalize_name (Text name)).
Proof.
  destruct (normalize_name_shape name) as (Hascii & Hlow & Hfree).
  by rewrite (normalize_name_of_canonical _ Hascii Hlow Hfree).
Qed.

End AsciiTables.

End CanonicalizerProperties.

Lemma grave_table_ascii : Canonicalizer.ascii_table Canonicalizer.grave_table.
Proof.
  intros c s. unfold Canonicalizer.grave_table.
  repeat case_match; intros [= <-]; by repeat constructor.
Qed.

(** C7, as stated, fails at [a !]: the canonical name is [a ] with a
    trailing space, and the canonical name of that is [a]. *)
Lemma normalize_name_not_idempotent :
  Canonicalizer.normalize_name Canonicalizer.grave_table
    Canonicalizer.no_case_table
    (Canonicalizer.Text
       (Canonicalizer.normalize_name Canonicalizer.grave_table
          Canonicalizer.no_case_table
          (Canonicalizer.Text (Canonicalizer.text "a !"))))
  ≠ Canonicalizer.normalize_name Canonicalizer.grave_table
      Canonicalizer.no_case_table
      (Canonicalizer.Text (Canonicalizer.text "a !")).
Proof. compute_done. Qed.

Lemma normalize_name_twice_witness :
  Canonicalizer.ascii_table Canonicalizer.grave_table
  ∧ Canonicalizer.normalize_name Canonicalizer.grave_table
      Canonicalizer.no_case_table
      (Canonicalizer.Text
         (Canonicalizer.normalize_name Canonicalizer.grave_table
            Canonicalizer.no_case_table
            (Canonicalizer.Text (Canonicalizer.text "a !"))))
    = Canonicalizer.strip
        (Canonicalizer.normalize_name Canonicalizer.grave_table
           Canonicalizer.no_case_table
           (Canonicalizer.Text (Canonicalizer.text "a !"))).
Proof.
  split; [exact grave_table_ascii|].
  apply (normalize_name_twice Canonicalizer.grave_table
           Canonicalizer.no_case_table grave_table_ascii
           (Canonicalizer.text "a !")).
Defined.

Lemma normalize_name_order_witness :
  Canonicalizer.grave_table 224%N = Some (Canonicalizer.text "a")
  ∧ Canonicalizer.normalize_name Canonicalizer.grave_table
      Canonicalizer.no_case_table
      (Canonicalizer.Text Canonicalizer.citta_d_aosta)
    = Canonicalizer.text "citta daosta".
Proof.
  split; [reflexivity|].
  apply (normalize_name_order Canonicalizer.grave_table
           Canonicalizer.no_case_table).
  reflexivity.
Defined.

(** ** Zero padding *)

Section FormatterProperties.
Import Canonicalizer Formatter.

Implicit Types (width : Z) (s : str) (x : value) (cs before after : list string).
Implicit Types (data : gmap string (list value)).

Lemma length_zfill width s :
  Z.of_nat (length (zfill width s)) = Z.max (Z.of_nat (length s)) width.
Proof.
  unfold zfill. destruct (Z.leb_spec (width - Z.of_nat (length s)) 0); [lia|].
  destruct s as [|c rest]; [|destruct (is_sign c)]; simpl;
    rewrite ?length_app, ?length_replicate; simpl; lia.
Qed.

Lemma zfill_wide_enough width s :
  (width ≤ Z.of_nat (length s))%Z → zfill width s = s.
Proof.
  intros Hle. unfold zfill.
  destruct (Z.leb_spec (width - Z.of_nat (length s)) 0); [done | lia].
Qed.

Lemma zfill_idemp width s : zfill width (zfill width s) = zfill width s.
Proof. apply zfill_wide_enough. rewrite length_zfill. lia. Qed.

Lemma pad_idemp width x : pad width (pad width x) = pad width x.
Proof. unfold pad. simpl. by rewrite zfill_idemp. Qed.

Lemma pad_columns_app width cs1 cs2 data :
  pad_columns width (cs1 ++ cs2) data =
    match pad_columns width cs1 data with
    | (data1, None) => pad_columns width cs2 data1
    | (data1, Some e) => (data1, Some e)
    end.
Proof.
  revert data. induction cs1 as [|c cs1 IH]; intros data; simpl; [done|].
  destruct (data !! c); [apply IH | done].
Qed.

(** The loop over names that are all columns: it ends without exception,
    every named column is padded, once, however often it is named, and
    every other column is left alone. *)
Lemma pad_columns_present width cs data :
  (∀ c, c ∈ cs → is_Some (data !! c)) →
  ∃ data', pad_columns width cs data = (data', None) ∧
    ∀ c, data' !! c =
      if decide (c ∈ cs) then fmap (pad width) <$> data !! c else data !! c.
Proof.
  revert data. induction cs as [|c0 rest IH]; intros data Hall; simpl.
  - exists data. split; [done|]. intros c.
    destruct (decide (c ∈ [])) as [Hin|_]; [by apply elem_of_nil in Hin | done].
  - destruct (Hall c0) as [cells Hcells]; [rewrite elem_of_cons; tauto|].
    rewrite Hcells.
    destruct (IH (<[c0 := pad width <$> cells]> data)) as (data' & -> & Hlook).
    { intros c Hc. destruct (decide (c = c0)) as [->|Hne].
      - rewrite lookup_insert_eq. by eexists.
      - rewrite lookup_insert_ne by done. apply Hall. rewrite elem_of_cons. tauto. }
    exists data'. split; [done|]. intros c. rewrite Hlook.
    destruct (decide (c = c0)) as [->|Hne].
    + rewrite lookup_insert_eq, Hcells, (decide_True (P := c0 ∈ c0 :: rest))
        by (rewrite elem_of_cons; tauto).
      destruct (decide (c0 ∈ rest)); [|done]. simpl. f_equal.
      rewrite <- list_fmap_compose. apply list_fmap_ext.
      intros i x _. apply pad_idemp.
    + rewrite lookup_insert_ne by done.
      destruct (decide (c ∈ rest)) as [Hin|Hout].
      * rewrite decide_True; [done | rewrite elem_of_cons; tauto].
      * rewrite decide_False; [done | rewrite elem_of_cons; tauto].
Qed.

Lemma add_zeroes_present data column width :
  (∀ c, c ∈ column_list column → is_Some (data !! c)) →
  ∃ data', add_zeroes data column width = (data', Return data') ∧
    ∀ c, data' !! c =
      if decide (c ∈ column_list column)
      then fmap (pad width) <$> data !! c else data !! c.
Proof.
  intros Hall. unfold add_zeroes.
  destruct (pad_columns_present width (column_list column) data Hall)
    as (data' & -> & Hlook).
  by exists data'.
Qed.

(** X1: when every name of [column] is a column of the frame, [add_zeroes]
    returns the frame it has written into, in which each named column
    holds the padded cells of the frame given (padded once, however often
    the column is named) and every other column is as it was. *)
Theorem add_zeroes_columns data column width :
  (∀ c, c ∈ column_list column → is_Some (data !! c)) →
  ∃ data', add_zeroes data column width = (data', Return data') ∧
    ∀ c, data' !! c =
      if decide (c ∈ column_list column)
      then fmap (pad width) <$> data !! c else data !! c.
Proof. apply add_zeroes_present. Qed.

(** X2: every cell of a padded column is a text, of [width] characters or
    as many as the cell's own text has if these are more: nothing is cut
    off, and a negative or zero [width] changes no text. *)
Theorem add_zeroes_cell_length data column width c cells i x :
  (∀ c', c' ∈ column_list column → is_Some (data !! c')) →
  c ∈ column_list column → data !! c = Some cells → cells !! i = Some x →
  ∃ data' cells' s,
    add_zeroes data column width = (data', Return data')
    ∧ data' !! c = Some cells' ∧ length cells' = length cells
    ∧ cells' !! i = Some (PyStr s)
    ∧ Z.of_nat (length s) = Z.max (Z.of_nat (length (str_of x))) width
    ∧ ((width ≤ Z.of_nat (length (str_of x)))%Z → s = str_of x).
Proof.
  intros Hall Hc Hcells Hx.
  destruct (add_zeroes_present data column width Hall) as (data' & Hres & Hlook).
  exists data', (pad width <$> cells), (zfill width (str_of x)).
  split; [done|]. specialize (Hlook c).
  rewrite decide_True, Hcells in Hlook by done.
  split; [done|]. split; [apply length_fmap|].
  split; [by rewrite list_lookup_fmap, Hx|].
  split; [apply length_zfill | apply zfill_wide_enough].
Qed.

(** X3: padding again, the same columns to the same width, changes
    nothing. *)
Theorem add_zeroes_idemp data column width :
  (∀ c, c ∈ column_list column → is_Some (data !! c)) →
  ∃ data', add_zeroes data column width = (data', Return data')
    ∧ add_zeroes data' column width = (data', Return data').
Proof.
  intros Hall.
  destruct (add_zeroes_present data column width Hall) as (data' & Hres & Hlook).
  exists data'. split; [done|].
  destruct (add_zeroes_present data' column width) as (data'' & Hres' & Hlook').
  { intros c Hc. rewrite Hlook, decide_True by done.
    destruct (Hall c Hc) as [cells ->]. by eexists. }
  assert (data'' = data') as ->; [|done].
  apply map_eq. intros c. rewrite Hlook', Hlook.
  destruct (decide (c ∈ column_list column)); [|done].
  destruct (data !! c) as [cells|]; [|done]. simpl. f_equal.
  rewrite <- list_fmap_compose. apply list_fmap_ext. intros i x _. apply pad_idemp.
Qed.

(** X4: at the first name that is no column of the frame the call raises a
    [KeyError], and leaves the frame with the columns named before it
    already padded. *)
Theorem add_zeroes_missing_column data column width before c after :
  column_list column = before ++ c :: after →
  (∀ b, b ∈ before → is_Some (data !! b)) → data !! c = None →
  ∃ data', add_zeroes data column width = (data', Raise KeyError) ∧
    ∀ k, data' !! k =
      if decide (k ∈ before) then fmap (pad width) <$> data !! k
      else data !! k.
Proof.
  intros Hcols Hbefore Hmissing. unfold add_zeroes.
  rewrite Hcols, pad_columns_app.
  destruct (pad_columns_present width before data Hbefore)
    as (data' & -> & Hlook).
  assert (data' !! c = None) as Hc.
  { rewrite Hlook, Hmissing. by destruct (decide (c ∈ before)). }
  simpl. rewrite Hc. by exists data'.
Qed.

End FormatterProperties.

Lemma codes_frame_columns c :
  c ∈ ["istat"; "name"; "istat"] → is_Some (Formatter.codes_frame !! c).
Proof.
  intros Hc.
  repeat (apply elem_of_cons in Hc as [->|Hc]; [by eexists|]).
  by apply elem_of_nil in Hc.
Qed.

Lemma add_zeroes_columns_witness :
  ∃ data',
    Formatter.add_zeroes Formatter.codes_frame
      (Formatter.Names ["istat"; "name"; "istat"]) 6 = (data', Return data')
    ∧ ∀ c, data' !! c =
        if decide (c ∈ ["istat"; "name"; "istat"])
        then fmap (Formatter.pad 6) <$> Formatter.codes_frame !! c
        else Formatter.codes_frame !! c.
Proof.
  apply (add_zeroes_columns Formatter.codes_frame
           (Formatter.Names ["istat"; "name"; "istat"]) 6).
  exact codes_frame_columns.
Defined.

Lemma add_zeroes_cell_length_witness :
  ∃ data' cells' s,
    Formatter.add_zeroes Formatter.codes_frame
      (Formatter.Names ["istat"; "name"; "istat"]) 6 = (data', Return data')
    ∧ data' !! "istat" = Some cells' ∧ length cells' = 3
    ∧ cells' !! 0 = Some (Formatter.PyStr s)
    ∧ Z.of_nat (length s) = 6%Z
    ∧ ((6 ≤ 4)%Z → s = Canonicalizer.text "1001").
Proof.
  apply (add_zeroes_cell_length Formatter.codes_frame
           (Formatter.Names ["istat"; "name"; "istat"]) 6 "istat"
           [Formatter.PyInt 1001; Formatter.PyInt 58091;
            Formatter.PyStr (Canonicalizer.text "7")] 0 (Formatter.PyInt 1001));
    [exact codes_frame_columns | compute_done | compute_done | compute_done].
Defined.

Lemma add_zeroes_idemp_witness :
  ∃ data',
    Formatter.add_zeroes Formatter.codes_frame
      (Formatter.Names ["istat"; "name"; "istat"]) 6 = (data', Return data')
    ∧ Formatter.add_zeroes data'
        (Formatter.Names ["istat"; "name"; "istat"]) 6 = (data', Return data').
Proof.
  apply (add_zeroes_idemp Formatter.codes_frame
           (Formatter.Names ["istat"; "name"; "istat"]) 6).
  exact codes_frame_columns.
Defined.

Lemma add_zeroes_missing_column_witness :
  ∃ data',
    Formatter.add_zeroes Formatter.codes_frame
      (Formatter.Names ["istat"; "code"; "name"]) 6 = (data', Raise KeyError)
    ∧ ∀ k, data' !! k =
        if decide (k ∈ ["istat"])
        then fmap (Formatter.pad 6) <$> Formatter.codes_frame !! k
        else Formatter.codes_frame !! k.
Proof.
  apply (add_zeroes_missing_column Formatter.codes_frame
           (Formatter.Names ["istat"; "code"; "name"]) 6
           ["istat"] "code" ["name"]); [done | | compute_done].
  intros b ->%list_elem_of_singleton. by eexists.
Defined.

(** ** Loading the sheets of a workbook *)

Section WorkbookProperties.
Import Workbook.

Variable Frame : Type.
Variable PandasError : Type.
Variable read_excel : string → string → nat → PandasError + Frame.
Variable drop_columns : Frame → list Z → PandasError + Frame.
Variable n_columns : Frame → nat.
Variable set_columns : Frame → list string → Frame.
Variable set_year : Frame → string → Frame.
Variable concat : list Frame → PandasError + Frame.

Variable file_path : string.
Variable cols_to_drop : list Z.
Variable col_names : list string.
Variable skiprows : nat.

Local Abbreviation load_sheet :=
  (load_sheet Frame PandasError read_excel drop_columns file_path cols_to_drop
     skiprows).
Local Abbreviation load_sheets :=
  (load_sheets Frame PandasError read_excel drop_columns n_columns set_columns
     set_year file_path cols_to_drop col_names skiprows).
Local Abbreviation merge_xlsx sheets :=
  (merge_xlsx Frame PandasError read_excel drop_columns n_columns set_columns
     set_year concat file_path sheets cols_to_drop col_names skiprows).
Local Abbreviation valid_sheet :=
  (valid_sheet Frame PandasError read_excel drop_columns n_columns set_columns
     set_year file_path cols_to_drop col_names skiprows).
Local Abbreviation skip_message :=
  (skip_message Frame PandasError read_excel drop_columns n_columns file_path
     cols_to_drop col_names skiprows).

Implicit Types (sheets before after : list string) (year : string).
Implicit Types (df_list : list Frame) (printed : list (message Frame)).

(** A sheet that pandas reads and drops the columns of without exception. *)
Local Abbreviation loads year := (∃ df, load_sheet year = inr df).

Lemma load_sheets_cons year sheets df_list printed :
  load_sheets (year :: sheets) df_list printed =
    match load_sheet year with
    | inl e => (printed, inl e)
    | inr df =>
        if decide (n_columns df ≠ length col_names) then
          load_sheets sheets df_list
            (printed ++ [Skipping year (n_columns df) (length col_names)])
        else
          load_sheets sheets
            (df_list ++ [set_year (set_columns df col_names) year]) printed
    end.
Proof. done. Qed.

(** What the validation step makes of a sheet that loads. *)
Lemma sheet_skipped year df :
  load_sheet year = inr df → n_columns df ≠ length col_names →
  valid_sheet year = None
  ∧ skip_message year = Some (Skipping year (n_columns df) (length col_names)).
Proof.
  intros Hdf Hne. unfold Workbook.valid_sheet, Workbook.skip_message.
  by rewrite Hdf, !decide_True.
Qed.

Lemma sheet_kept year df :
  load_sheet year = inr df → ¬ n_columns df ≠ length col_names →
  valid_sheet year = Some (set_year (set_columns df col_names) year)
  ∧ skip_message year = None.
Proof.
  intros Hdf Hne. unfold Workbook.valid_sheet, Workbook.skip_message.
  by rewrite Hdf, !decide_False.
Qed.

Lemma omap_cons_Some {A B} (f : A → option B) x y l :
  f x = Some y → omap f (x :: l) = y :: omap f l.
Proof. intros Hx. simpl. by rewrite Hx. Qed.

Lemma omap_cons_None {A B} (f : A → option B) x l :
  f x = None → omap f (x :: l) = omap f l.
Proof. intros Hx. simpl. by rewrite Hx. Qed.

(** The loop over sheets that all load: the frames of the valid sheets are
    appended in order, a line is printed for each of the others. *)
Lemma load_sheets_loaded sheets df_list printed :
  (∀ year, year ∈ sheets → loads year) →
  load_sheets sheets df_list printed =
    (printed ++ omap skip_message sheets,
     inr (df_list ++ omap valid_sheet sheets)).
Proof.
  revert df_list printed.
  induction sheets as [|year rest IH]; intros df_list printed Hall.
  - simpl. by rewrite !app_nil_r.
  - destruct (Hall year) as [df Hdf]; [rewrite elem_of_cons; tauto|].
    assert (∀ y, y ∈ rest → loads y) as Hrest
      by (intros y Hy; apply Hall; rewrite elem_of_cons; tauto).
    rewrite load_sheets_cons, Hdf.
    destruct (decide (n_columns df ≠ length col_names)) as [Hne|Heq].
    + destruct (sheet_skipped year df Hdf Hne) as [Hv Hs].
      rewrite (omap_cons_None _ _ _ Hv), (omap_cons_Some _ _ _ _ Hs).
      rewrite (IH _ _ Hrest). by rewrite <- app_assoc.
    + destruct (sheet_kept year df Hdf Heq) as [Hv Hs].
      rewrite (omap_cons_Some _ _ _ _ Hv), (omap_cons_None _ _ _ Hs).
      rewrite (IH _ _ Hrest). by rewrite <- app_assoc.
Qed.

(** The loop stops at the first sheet that does not load. *)
Lemma load_sheets_failed before year after df_list printed e :
  (∀ y, y ∈ before → loads y) → load_sheet year = inl e →
  load_sheets (before ++ year :: after) df_list printed =
    (printed ++ omap skip_message before, inl e).
Proof.
  revert df_list printed.
  induction before as [|y rest IH]; intros df_list printed Hall He.
  - simpl app. rewrite load_sheets_cons, He. simpl. by rewrite app_nil_r.
  - destruct (Hall y) as [df Hdf]; [rewrite elem_of_cons; tauto|].
    assert (∀ y', y' ∈ rest → loads y') as Hrest
      by (intros y' Hy; apply Hall; rewrite elem_of_cons; tauto).
    rewrite <- app_comm_cons, load_sheets_cons, Hdf.
    destruct (decide (n_columns df ≠ length col_names)) as [Hne|Heq].
    + destruct (sheet_skipped y df Hdf Hne) as [_ Hs].
      rewrite (omap_cons_Some _ _ _ _ Hs), (IH _ _ Hrest He).
      by rewrite <- app_assoc.
    + destruct (sheet_kept y df Hdf Heq) as [_ Hs].
      by rewrite (omap_cons_None _ _ _ Hs), (IH _ _ Hrest He).
Qed.

(** X5: when no sheet passes the validation of its number of columns (every
    sheet loads and has another number of columns than [col_names], or
    there is no sheet at all), [merge_xlsx] prints a line for each sheet
    and the line that nothing was combined, and then raises an
    [UnboundLocalError] at [return df_all]: no frame is returned. *)
Theorem merge_xlsx_no_valid_sheet sheets :
  (∀ year, year ∈ sheets →
     ∃ df, load_sheet year = inr df ∧ n_columns df ≠ length col_names) →
  ∃ printed,
    merge_xlsx sheets = (printed ++ [NoValidSheets], inl UnboundLocalError)
    ∧ length printed = length sheets
    ∧ ∀ i year, sheets !! i = Some year →
        ∃ actual, printed !! i = Some (Skipping year actual (length col_names))
                  ∧ actual ≠ length col_names.
Proof.
  intros Hall. unfold Workbook.merge_xlsx.
  rewrite load_sheets_loaded by (intros y (df & Hdf & _)%Hall; by exists df).
  assert (omap valid_sheet sheets = []
          ∧ length (omap skip_message sheets) = length sheets
          ∧ ∀ i year, sheets !! i = Some year →
              ∃ actual, omap skip_message sheets !! i
                          = Some (Skipping year actual (length col_names))
                        ∧ actual ≠ length col_names) as (-> & Hlen & Hmsg).
  { clear -Hall. induction sheets as [|y rest IH]; [by repeat split|].
    destruct (Hall y) as (df & Hdf & Hne); [rewrite elem_of_cons; tauto|].
    destruct IH as (IHv & IHl & IHm).
    { intros y' Hy'. apply Hall. rewrite elem_of_cons. tauto. }
    destruct (sheet_skipped y df Hdf Hne) as [Hv Hs].
    rewrite (omap_cons_None _ _ _ Hv), (omap_cons_Some _ _ _ _ Hs).
    split; [done|]. split; [simpl; by rewrite IHl|].
    intros [|i] year Hyear; simpl in Hyear.
    - injection Hyear as <-. by exists (n_columns df).
    - by apply IHm. }
  simpl. by exists (omap skip_message sheets).
Qed.

(** X6: when every sheet loads and at least one passes the validation, the
    frames combined are those of the valid sheets, in the order of
    [sheets_to_process], each renamed and with its year; the sheets with
    another number of columns are left out, with a line printed for each. *)
Theorem merge_xlsx_combines_valid_sheets sheets :
  (∀ year, year ∈ sheets → loads year) →
  omap valid_sheet sheets ≠ [] →
  merge_xlsx sheets =
    match concat (omap valid_sheet sheets) with
    | inl e => (omap skip_message sheets, inl (Pandas e))
    | inr df_all =>
        (omap skip_message sheets
           ++ [Combined (length (omap valid_sheet sheets)) df_all],
         inr df_all)
    end.
Proof.
  intros Hall Hvalid. unfold Workbook.merge_xlsx.
  rewrite load_sheets_loaded by done. simpl.
  by destruct (omap valid_sheet sheets).
Qed.

(** X7: a sheet that pandas cannot load ends the call with the exception
    of pandas, whatever the sheets after it hold, valid sheets before it
    notwithstanding. *)
Theorem merge_xlsx_load_failure before year after e :
  (∀ y, y ∈ before → loads y) → load_sheet year = inl e →
  merge_xlsx (before ++ year :: after)
  = (omap skip_message before, inl (Pandas e)).
Proof.
  intros Hall He. unfold Workbook.merge_xlsx.
  by rewrite (load_sheets_failed before year after [] [] e Hall He).
Qed.

End WorkbookProperties.

Lemma merge_xlsx_no_valid_sheet_witness :
  ∃ printed,
    Workbook.merge_xlsx (list string) unit Workbook.sample_read
      Workbook.sample_drop length Workbook.sample_set_columns
      Workbook.sample_set_year Workbook.sample_concat
      "prices.xlsx" ["2020"; "2021"] [0%Z] ["x"; "y"] 5
    = (printed ++ [Workbook.NoValidSheets], inl Workbook.UnboundLocalError)
    ∧ length printed = 2
    ∧ ∀ i year, ["2020"; "2021"] !! i = Some year →
        ∃ actual, printed !! i = Some (Workbook.Skipping year actual 2)
                  ∧ actual ≠ 2.
Proof.
  apply (merge_xlsx_no_valid_sheet (list string) unit Workbook.sample_read
           Workbook.sample_drop length Workbook.sample_set_columns
           Workbook.sample_set_year Workbook.sample_concat
           "prices.xlsx" [0%Z] ["x"; "y"] 5 ["2020"; "2021"]).
  intros year Hyear.
  apply elem_of_cons in Hyear as [->|Hyear]; [eexists; split; [reflexivity|done]|].
  apply elem_of_cons in Hyear as [->|Hyear]; [eexists; split; [reflexivity|done]|].
  by apply elem_of_nil in Hyear.
Defined.

Lemma sample_sheets_load year :
  year ∈ ["2020"; "2019"] →
  ∃ df, Workbook.load_sheet (list string) unit Workbook.sample_read
          Workbook.sample_drop "prices.xlsx" [0%Z] 5 year = inr df.
Proof.
  intros Hyear.
  repeat (apply elem_of_cons in Hyear as [->|Hyear]; [by eexists|]).
  by apply elem_of_nil in Hyear.
Qed.

Lemma merge_xlsx_combines_valid_sheets_witness :
  Workbook.merge_xlsx (list string) unit Workbook.sample_read
    Workbook.sample_drop length Workbook.sample_set_columns
    Workbook.sample_set_year Workbook.sample_concat
    "prices.xlsx" ["2020"; "2019"] [0%Z] ["x"; "y"] 5
  = ([Workbook.Skipping "2020" 3 2; Workbook.Combined 1 ["x"; "y"; "year"]],
     inr ["x"; "y"; "year"]).
Proof.
  apply (merge_xlsx_combines_valid_sheets (list string) unit
           Workbook.sample_read Workbook.sample_drop length
           Workbook.sample_set_columns Workbook.sample_set_year
           Workbook.sample_concat "prices.xlsx" [0%Z] ["x"; "y"] 5
           ["2020"; "2019"] sample_sheets_load).
  compute_done.
Defined.

Lemma merge_xlsx_load_failure_witness :
  Workbook.merge_xlsx (list string) unit Workbook.sample_read
    Workbook.sample_drop length Workbook.sample_set_columns
    Workbook.sample_set_year Workbook.sample_concat
    "prices.xlsx" (["2020"; "2019"] ++ "2018" :: ["2021"]) [0%Z] ["x"; "y"] 5
  = ([Workbook.Skipping "2020" 3 2], inl (Workbook.Pandas ())).
Proof.
  apply (merge_xlsx_load_failure (list string) unit Workbook.sample_read
           Workbook.sample_drop length Workbook.sample_set_columns
           Workbook.sample_set_year Workbook.sample_concat
           "prices.xlsx" [0%Z] ["x"; "y"] 5 ["2020"; "2019"] "2018" ["2021"] ());
    [exact sample_sheets_load | reflexivity].
Defined.

(** ** The walk of the resolver along the supersession chain *)

Section WalkProperties.
Import Resolver Walk.
Local Open Scope nat_scope.

Implicit Types (mapping : gmap string string) (valid_set visited : gset string).
Implicit Types (code current final node : string) (r : record).

Lemma follow_add mapping (a b : nat) code :
  follow mapping (a + b) code = follow mapping a code ≫= follow mapping b.
Proof.
  revert code. induction a as [|a IH]; intros code; simpl; [done|].
  destruct (mapping !! code); [apply IH | done].
Qed.

Lemma follow_S_last mapping (k : nat) code final :
  follow mapping (S k) code = Some final →
  ∃ prev, follow mapping k code = Some prev ∧ mapping !! prev = Some final.
Proof.
  replace (S k) with (k + 1) by lia. rewrite follow_add.
  destruct (follow mapping k code) as [prev|]; [|done]. simpl.
  destruct (mapping !! prev) as [next|] eqn:Hnext; [|done].
  intros [= <-]. by exists prev.
Qed.

(** Behind a code that is no key the chain has ended. *)
Lemma follow_past_end mapping (k n : nat) code final :
  follow mapping k code = Some final → mapping !! final = None → k < n →
  follow mapping n code = None.
Proof.
  intros Hk Hend Hlt. replace n with (k + S (n - k - 1)) by lia.
  rewrite follow_add, Hk. simpl. by rewrite Hend.
Qed.

(** Once the walk is back at an earlier code it stays among the codes in
    between. *)
Lemma follow_periodic mapping (j k : nat) code :
  j < k → follow mapping k code = follow mapping j code →
  ∀ i, j ≤ i → ∃ i', j ≤ i' ∧ i' < k
                ∧ follow mapping i code = follow mapping i' code.
Proof.
  intros Hjk Hback i. induction (lt_wf i) as [i _ IH]. intros Hji.
  destruct (decide (i < k)) as [Hlt|Hge]; [by exists i|].
  destruct (IH (j + (i - k))) as (i' & Hlo & Hhi & Heq); [lia | lia|].
  exists i'. split; [done|]. split; [done|]. rewrite <- Heq.
  replace i with (k + (i - k)) at 1 by lia.
  by rewrite !follow_add, Hback.
Qed.

(** What the loop has done when it returns: it has followed the chain from
    [current] to [final] over codes that are keys, unvisited and all
    different, and [final] is no key or was visited or passed before. *)
Lemma resolve_loop_walk fuel mapping visited current final (steps : nat) :
  resolve_loop fuel mapping visited current = Some (final, steps) →
  ∃ k : nat, steps = S k ∧ follow mapping k current = Some final
    ∧ (mapping !! final = None ∨ final ∈ visited
       ∨ ∃ j : nat, j < k ∧ follow mapping j current = Some final)
    ∧ ∀ i : nat, i < k →
        ∃ node, follow mapping i current = Some node
          ∧ is_Some (mapping !! node) ∧ (node ∉ visited)
          ∧ ∀ j : nat, j < i → follow mapping j current ≠ Some node.
Proof.
  revert visited current final steps.
  induction fuel as [|fuel IH]; intros visited current final steps; [done|].
  simpl. destruct (mapping !! current) as [next|] eqn:Hnext.
  - destruct (decide (current ∈ visited)) as [Hseen|Hnew].
    + intros [= <- <-]. exists 0. repeat split; [tauto | intros i; lia].
    + destruct (resolve_loop fuel mapping _ next) as [[f st]|] eqn:Hrec;
        [|done].
      intros [= <- <-].
      destruct (IH _ _ _ _ Hrec) as (k & -> & Hk & Hstop & Hprefix).
      exists (S k). split; [done|]. split; [by simpl; rewrite Hnext|]. split.
      * destruct Hstop as [Hend|[Hvis|(j & Hj & Hfj)]]; [by left| |].
        -- apply elem_of_union in Hvis as [->%elem_of_singleton|Hvis];
             [|by right; left].
           right; right. exists 0. split; [lia | done].
        -- right; right. exists (S j). split; [lia|]. by simpl; rewrite Hnext.
      * intros [|i] Hi.
        -- exists current. repeat split; [by eexists | done | intros j; lia].
        -- destruct (Hprefix i) as (node & Hnode & Hkey & Hout & Hfirst); [lia|].
           apply not_elem_of_union in Hout as [Hne%not_elem_of_singleton Hout].
           exists node. split; [by simpl; rewrite Hnext|].
           split; [done|]. split; [done|].
           intros [|j] Hj; simpl; [congruence|].
           rewrite Hnext. apply Hfirst. lia.
  - intros [= <- <-]. exists 0. repeat split; [tauto | intros i; lia].
Qed.

(** The walk of [resolve_code], from no code visited. *)
Lemma resolve_code_follows mapping code :
  ∃ final (k : nat),
    resolve_code mapping code = Some final
    ∧ follow mapping k code = Some final
    ∧ (mapping !! final = None
       ∨ ∃ j : nat, j < k ∧ follow mapping j code = Some final)
    ∧ ∀ i : nat, i < k →
        ∃ node, follow mapping i code = Some node
          ∧ is_Some (mapping !! node)
          ∧ ∀ j : nat, j < i → follow mapping j code ≠ Some node.
Proof.
  destruct (resolve_code_in_returns mapping code) as (final & steps & Hres & _).
  destruct (resolve_loop_walk _ _ _ _ _ _ Hres)
    as (k & _ & Hk & Hstop & Hprefix).
  exists final, k. split; [unfold resolve_code; by rewrite Hres|].
  split; [done|]. split.
  - destruct Hstop as [?|[Hvis|?]]; [by left | | by right].
    by apply not_elem_of_empty in Hvis.
  - intros i Hi. destruct (Hprefix i Hi) as (node & ? & ? & _ & ?).
    by exists node.
Qed.

(** X8: [resolve_code] returns the code [final] that the chain reaches from
    [code] after some number [k] of lookups; the codes passed before are
    keys of the mapping and all different, and [final] is the first code of
    the walk that is no key of the mapping or has been passed already. *)
Theorem resolve_code_walk mapping code :
  ∃ final (k : nat),
    resolve_code mapping code = Some final
    ∧ follow mapping k code = Some final
    ∧ (mapping !! final = None
       ∨ ∃ j : nat, j < k ∧ follow mapping j code = Some final)
    ∧ ∀ i : nat, i < k →
        ∃ node, follow mapping i code = Some node
          ∧ is_Some (mapping !! node)
          ∧ ∀ j : nat, j < i → follow mapping j code ≠ Some node.
Proof. apply resolve_code_follows. Qed.

(** The chain leads back to [code] itself exactly from a code that is no
    key or lies on a cycle. *)
Lemma resolve_code_self mapping code :
  resolve_code mapping code = Some code ↔
  mapping !! code = None ∨ on_cycle mapping code.
Proof.
  destruct (resolve_code_follows mapping code)
    as (final & k & Hres & Hk & Hstop & Hprefix).
  rewrite Hres.
  assert (∀ i : nat, 0 < i → i < k → follow mapping i code ≠ Some code)
    as Hfresh.
  { intros i Hpos Hi. destruct (Hprefix i Hi) as (node & Hnode & _ & Hfirst).
    rewrite Hnode. intros [= ->]. by apply (Hfirst 0). }
  split.
  - intros [= ->]. destruct k as [|k]; [|right; exists (S k); split; [lia|done]].
    destruct Hstop as [?|(j & Hj & _)]; [by left | lia].
  - intros [Hend|(n & Hpos & Hn)].
    + destruct k as [|k]; [simpl in Hk; congruence|].
      destruct (Hprefix 0) as (node & [= <-] & [next Hnext] & _); [lia|].
      congruence.
    + destruct (decide (n < k)) as [Hlt|Hge]; [by destruct (Hfresh n)|].
      destruct Hstop as [Hend|(j & Hj & Hfj)].
      * destruct (decide (n = k)) as [->|Hne]; [congruence|].
        rewrite (follow_past_end mapping k n code final) in Hn by (done || lia).
        done.
      * destruct j as [|j]; [simpl in Hfj; congruence|].
        assert (follow mapping k code = follow mapping (S j) code) as Hback
          by congruence.
        destruct (follow_periodic mapping (S j) k code Hj Hback n)
          as (i' & Hlo & Hhi & Heq); [lia|].
        rewrite Hn in Heq. by destruct (Hfresh i'); [lia | lia |].
Qed.

(** X9: an identifier is marked suppressed exactly when it is not valid and
    is no key of the mapping or lies on a cycle of it; it is marked changed
    exactly when it is not valid, is a key and lies on no cycle. *)
Theorem suppressed_iff_dead_end_or_cycle mapping valid_set code :
  ∃ r, resolve_entry mapping valid_set code = Some r
    ∧ (suppressed r = true ↔
       (code ∉ valid_set)
       ∧ (mapping !! code = None ∨ on_cycle mapping code))
    ∧ (changed r = true ↔
       (code ∉ valid_set) ∧ is_Some (mapping !! code)
       ∧ ¬ on_cycle mapping code).
Proof.
  destruct (resolve_entry_cases mapping valid_set code)
    as (final & Hfinal & Hentry).
  pose proof (resolve_code_self mapping code) as Hself.
  rewrite Hfinal in Hself. eexists. split; [exact Hentry|].
  destruct (decide (code ∈ valid_set)) as [Hval|Hval]; simpl;
    [split; split; [done | tauto | done | tauto]|].
  destruct (decide (final ≠ code)) as [Hne|Heq]; simpl.
  - assert (¬ (mapping !! code = None ∨ on_cycle mapping code)) as Hno
      by (intros H; apply Hself in H; congruence).
    split; split; [done | tauto | | done].
    intros _. split; [done|]. split; [|tauto].
    destruct (mapping !! code); [by eexists | tauto].
  - assert (final = code) as -> by (by destruct (decide (final = code))).
    assert (mapping !! code = None ∨ on_cycle mapping code) as Hyes
      by (by apply Hself).
    split; split; [done | done | done |].
    intros (_ & [next Hnext] & Hcyc). destruct Hyes; [congruence | done].
Qed.

(** X10: the code written for an identifier is the identifier itself unless
    it is marked changed, and then it is another code, one that the
    mapping lists as the successor of some code. *)
Theorem updated_code_from_table mapping valid_set code :
  ∃ r, resolve_entry mapping valid_set code = Some r
    ∧ (changed r = false → updated r = code)
    ∧ (changed r = true →
       updated r ≠ code ∧ ∃ old, mapping !! old = Some (updated r)).
Proof.
  destruct (resolve_entry_cases mapping valid_set code)
    as (final & Hfinal & Hentry).
  eexists. split; [exact Hentry|].
  destruct (decide (code ∈ valid_set)); simpl; [done|].
  destruct (decide (final ≠ code)) as [Hne|Heq]; simpl; [|done].
  split; [done|]. intros _. split; [done|].
  destruct (resolve_code_follows mapping code) as (final' & k & Hres & Hk & _).
  rewrite Hfinal in Hres. injection Hres as <-.
  destruct k as [|k]; [simpl in Hk; congruence|].
  apply follow_S_last in Hk as (prev & _ & Hprev). by exists prev.
Qed.

(** X11: on a frame with at least one row [update_istat] returns, and
    gives every row a record, the one of the row's code: as many records
    as rows, in the order of the rows, and the same record for rows with
    the same code.  On a frame without rows it raises a [KeyError]. *)
Theorem update_istat_every_row (col : list string) df_map valid_codes :
  col ≠ [] →
  update_istat [] df_map valid_codes = Some (Raise KeyError)
  ∧ ∃ records,
      update_istat col df_map valid_codes = Some (Return (Some <$> records))
      ∧ length records = length col
      ∧ ∀ (i : nat) code, col !! i = Some code →
          ∃ r, records !! i = Some r
            ∧ resolve_entry (to_dict df_map) (list_to_set valid_codes) code
              = Some r.
Proof.
  intros Hrows. split; [by rewrite update_istat_rows|].
  rewrite update_istat_rows.
  set (entry := resolve_entry (to_dict df_map) (list_to_set valid_codes)).
  assert (∀ code, ∃ r, entry code = Some r) as Htotal.
  { intros code. destruct (resolve_entry_cases (to_dict df_map)
      (list_to_set valid_codes) code) as (final & _ & Hentry). by eexists. }
  assert (∃ records, entry <$> col = Some <$> records
            ∧ length records = length col
            ∧ ∀ (i : nat) code, col !! i = Some code →
                ∃ r, records !! i = Some r ∧ entry code = Some r)
    as (records & Heq & Hlen & Hrec).
  { clear Hrows. induction col as [|c col IH].
    - exists []. repeat split. intros i code. by rewrite lookup_nil.
    - destruct IH as (records & Hrec & Hlen & Hrows).
      destruct (Htotal c) as [r Hr].
      exists (r :: records). split; [by rewrite !fmap_cons, Hr, Hrec|].
      split; [simpl; by rewrite Hlen|].
      intros [|i] code; simpl; [intros [= <-]; by exists r | apply Hrows]. }
  exists records. rewrite <- Heq. by destruct col.
Qed.

Lemma foldl_insert_other (rows : list (string * string)) mapping k :
  k ∉ rows.*1 →
  foldl (λ m row, <[row.1 := row.2]> m) mapping rows !! k = mapping !! k.
Proof.
  revert mapping. induction rows as [|[k' v'] rows IH]; intros mapping; [done|].
  rewrite fmap_cons, not_elem_of_cons. intros [Hne Hout]. simpl.
  rewrite (IH _ Hout). by rewrite lookup_insert_ne.
Qed.

(** X12: when the table lists an old code in several rows, the last of
    these rows gives its successor in the mapping. *)
Theorem to_dict_last_row (before after : list (string * string)) k v :
  k ∉ after.*1 → to_dict (before ++ (k, v) :: after) !! k = Some v.
Proof.
  intros Hout. unfold to_dict. rewrite foldl_app. simpl.
  rewrite (foldl_insert_other after _ k Hout). apply lookup_insert_eq.
Qed.

(** X13: the dictionary of records depends on which identifiers the column
    holds, not on their order or on how often each occurs. *)
Theorem resolve_same_codes (ids ids' : list string) mapping valid_set :
  (∀ code, code ∈ ids ↔ code ∈ ids') →
  resolve ids mapping valid_set = resolve ids' mapping valid_set.
Proof.
  intros Hsame.
  destruct (resolve_lookup ids mapping valid_set) as (d & -> & Hd).
  destruct (resolve_lookup ids' mapping valid_set) as (d' & -> & Hd').
  f_equal. apply map_eq. intros code. rewrite Hd, Hd'.
  destruct (decide (code ∈ ids)) as [Hin|Hout].
  - by rewrite decide_True by (by apply Hsame).
  - by rewrite decide_False by (by rewrite <- Hsame).
Qed.

End WalkProperties.

Lemma update_istat_every_row_witness :
  ["A"; "C"; "A"] ≠ []
  ∧ Resolver.update_istat [] [("A", "B"); ("B", "C")] ["C"]
    = Some (Raise KeyError)
  ∧ ∃ records,
      Resolver.update_istat ["A"; "C"; "A"] [("A", "B"); ("B", "C")] ["C"]
      = Some (Return (Some <$> records))
      ∧ length records = 3
      ∧ ∀ (i : nat) code, ["A"; "C"; "A"] !! i = Some code →
          ∃ r, records !! i = Some r
            ∧ Resolver.resolve_entry
                (Resolver.to_dict [("A", "B"); ("B", "C")])
                (list_to_set ["C"]) code
              = Some r.
Proof.
  split; [done|].
  apply (update_istat_every_row ["A"; "C"; "A"] [("A", "B"); ("B", "C")]
           ["C"]).
  done.
Defined.

Lemma to_dict_last_row_witness :
  ("B" ∉ [("C", "D")].*1)
  ∧ Resolver.to_dict ([("A", "B"); ("B", "X")] ++ ("B", "C") :: [("C", "D")])
    !! "B" = Some "C".
Proof.
  split; [compute_done|].
  apply (to_dict_last_row [("A", "B"); ("B", "X")] [("C", "D")] "B" "C").
  compute_done.
Defined.

Lemma resolve_same_codes_witness :
  Resolver.resolve ["A"; "Q"; "A"; "C"] Resolver.chain_map {["C"]}
  = Resolver.resolve ["C"; "Q"; "A"] Resolver.chain_map {["C"]}.
Proof.
  apply (resolve_same_codes ["A"; "Q"; "A"; "C"] ["C"; "Q"; "A"]
           Resolver.chain_map {["C"]}).
  intros code. rewrite !elem_of_cons, !elem_of_nil. tauto.
Defined.

(** ** The rows of the suggestion table *)

Lemma NoDup_unique_from (seen : gset string) (col : list string) :
  NoDup (unique_from seen col).
Proof.
  revert seen. induction col as [|c rest IH]; intros seen; simpl;
    [constructor|].
  destruct (decide (c ∈ seen)); [apply IH|].
  constructor; [|apply IH].
  rewrite elem_of_unique_from, not_elem_of_union, not_elem_of_singleton. tauto.
Qed.

Lemma NoDup_unique (col : list string) : NoDup (unique col).
Proof. apply NoDup_unique_from. Qed.

Section SuggestionRows.
Import Suggester Scores.
Local Open Scope nat_scope.

Variable Score : Type.
Variable WRatio : string → string → Score.
Variable score_gt : Score → Score → bool.
Variable sort_descending : list (suggestion Score) → list (suggestion Score).

Local Abbreviation extractOne_from := (extractOne_from Score WRatio score_gt).
Local Abbreviation extractOne := (extractOne Score WRatio score_gt).
Local Abbreviation build_rows := (build_rows Score WRatio score_gt).
Local Abbreviation similarity_score :=
  (similarity_score Score WRatio score_gt sort_descending).
Local Abbreviation best_of := (best_of WRatio score_gt).

Implicit Types (choices seen unmatched : list string) (query : string).
Implicit Types (rows out : list (suggestion Score)).

Hypothesis sort_descending_perm : ∀ rows, sort_descending rows ≡ₚ rows.

(** X14: the table returned has exactly one row for each distinct name of
    the first column that is absent from the second: no such name is
    missing, and none comes twice, however often the column holds it. *)
Theorem one_suggestion_per_unmatched_name (col1 col2 : list string) out :
  similarity_score col1 col2 = Return out →
  NoDup (name_in_df1 <$> out)
  ∧ ∀ x, x ∈ name_in_df1 <$> out ↔ x ∈ col1 ∧ x ∉ col2.
Proof.
  intros Hout.
  apply (similarity_score_Return Score WRatio score_gt sort_descending
           sort_descending_perm) in Hout.
  split.
  - rewrite Hout. apply NoDup_filter, NoDup_unique.
  - intros x. rewrite Hout, list_elem_of_filter, !elem_of_unique. tauto.
Qed.

Section Ordered.

Hypothesis score_order : strict_weak_order score_gt.

Lemma extractOne_from_best query choices seen best :
  best_of query seen best →
  best_of query (seen ++ choices)
    (extractOne_from best query (length seen) choices).
Proof.
  destruct score_order as [Hirr Htrans Hco].
  revert seen best. induction choices as [|choice rest IH];
    intros seen best Hbest; simpl; [by rewrite app_nil_r|].
  replace (seen ++ choice :: rest) with ((seen ++ [choice]) ++ rest)
    by (by rewrite <- app_assoc).
  replace (S (length seen)) with (length (seen ++ [choice]))
    by (rewrite length_app; simpl; lia).
  apply IH. clear IH.
  destruct best as [[[m top] k]|]; simpl in *.
  - destruct Hbest as (Hk & -> & Hmax & Hfirst).
    assert (k < length seen) as Hklt by (by eapply lookup_lt_Some).
    destruct (score_gt (WRatio query choice) (WRatio query m)) eqn:Hgt; simpl.
    + split; [by rewrite lookup_app_r, Nat.sub_diag by lia|]. split; [done|].
      split.
      * intros c [Hc| ->%list_elem_of_singleton]%elem_of_app; [|apply Hirr].
        destruct (score_gt (WRatio query c) (WRatio query choice)) eqn:Hc';
          [|done].
        rewrite <- (Hmax c Hc). symmetry. by eapply Htrans.
      * intros j c Hj Hjc. rewrite lookup_app_l in Hjc by done.
        destruct (Hco _ _ (WRatio query c) Hgt) as [|Hcontra]; [done|].
        rewrite (Hmax c) in Hcontra; [done|]. by eapply list_elem_of_lookup_2.
    + split; [by rewrite lookup_app_l|]. split; [done|]. split.
      * intros c [Hc| ->%list_elem_of_singleton]%elem_of_app; [by apply Hmax|done].
      * intros j c Hj Hjc. rewrite lookup_app_l in Hjc by lia. by eapply Hfirst.
  - subst seen. simpl. repeat split.
    + intros c ->%list_elem_of_singleton. apply Hirr.
    + intros j c Hj. lia.
Qed.

Lemma extractOne_best query choices :
  best_of query choices (extractOne query choices).
Proof. by apply (extractOne_from_best query choices [] None). Qed.

(** Every row the loop appends holds the answer of [extractOne] for its
    name. *)
Lemma build_rows_matches (names_df2 : list string) unmatched rows out :
  build_rows names_df2 unmatched rows = Return out →
  ∃ new, out = rows ++ new ∧
    Forall (λ row, ∃ key : nat,
              extractOne (name_in_df1 row) names_df2
              = Some (name_in_df2 row, similarity row, key)) new.
Proof.
  revert rows. induction unmatched as [|name rest IH]; intros rows; simpl.
  - intros [= <-]. exists []. by rewrite app_nil_r.
  - destruct (extractOne name names_df2) as [[[m score] k]|] eqn:Hone; [|done].
    intros (new & -> & Hnew)%IH.
    exists (mk_suggestion name m score :: new).
    split; [by rewrite <- app_assoc|]. constructor; [by exists k | done].
Qed.

(** X15: in every row returned, the candidate is a name of the second
    column, the score is the score of the row's name against it, no name
    of the second column scores higher, and every distinct name that comes
    before the candidate in the second column scores lower: among the best
    candidates the first is taken. *)
Theorem suggestion_is_first_best (col1 col2 : list string) out row :
  similarity_score col1 col2 = Return out → row ∈ out →
  name_in_df2 row ∈ col2
  ∧ similarity row = WRatio (name_in_df1 row) (name_in_df2 row)
  ∧ (∀ c, c ∈ col2 →
       score_gt (WRatio (name_in_df1 row) c) (similarity row) = false)
  ∧ ∃ key : nat, unique col2 !! key = Some (name_in_df2 row)
      ∧ ∀ (j : nat) c, j < key → unique col2 !! j = Some c →
          score_gt (similarity row) (WRatio (name_in_df1 row) c) = true.
Proof.
  unfold Suggester.similarity_score.
  destruct (build_rows _ _ _) as [rows|e] eqn:Hrows; [|done]. simpl.
  unfold Suggester.sort_values. case_decide; [|done]. intros [= <-] Hrow.
  rewrite sort_descending_perm in Hrow.
  apply build_rows_matches in Hrows as (new & -> & Hnew).
  rewrite Forall_forall in Hnew. destruct (Hnew row Hrow) as [key Hone].
  pose proof (extractOne_best (name_in_df1 row) (unique col2)) as Hbest.
  rewrite Hone in Hbest. destruct Hbest as (Hkey & Hscore & Hmax & Hfirst).
  split; [apply elem_of_unique; by eapply list_elem_of_lookup_2|].
  split; [done|]. split; [|by exists key].
  intros c Hc. apply Hmax. by apply elem_of_unique.
Qed.

End Ordered.

End SuggestionRows.

Lemma nat_gt_order : Scores.strict_weak_order Suggester.nat_gt.
Proof.
  unfold Suggester.nat_gt. split.
  - intros a. apply bool_decide_eq_false. lia.
  - intros a b c Hab%bool_decide_eq_true Hbc%bool_decide_eq_true.
    apply bool_decide_eq_true. lia.
  - intros a b c Hab%bool_decide_eq_true.
    destruct (decide (c < a)) as [Hlt|Hge].
    + left. by apply bool_decide_eq_true.
    + right. apply bool_decide_eq_true. lia.
Qed.

Lemma one_suggestion_per_unmatched_name_witness :
  Suggester.similarity_score nat Suggester.prefix_score Suggester.nat_gt
    Suggester.insertion_sort ["milan"; "bologna"; "bolognia"; "milan"]
    ["bologna"; "milano"]
  = Return [Suggester.mk_suggestion "bolognia" "bologna" 6;
            Suggester.mk_suggestion "milan" "milano" 5]
  ∧ NoDup ["bolognia"; "milan"]
  ∧ ∀ x, x ∈ ["bolognia"; "milan"] ↔
         x ∈ ["milan"; "bologna"; "bolognia"; "milan"]
         ∧ x ∉ ["bologna"; "milano"].
Proof.
  split; [compute_done|].
  apply (one_suggestion_per_unmatched_name nat Suggester.prefix_score
           Suggester.nat_gt Suggester.insertion_sort insertion_sort_perm
           ["milan"; "bologna"; "bolognia"; "milan"] ["bologna"; "milano"]
           [Suggester.mk_suggestion "bolognia" "bologna" 6;
            Suggester.mk_suggestion "milan" "milano" 5]).
  compute_done.
Defined.

(** bolo and bologna both share four leading characters with bolox: of the
    two best candidates the first of the column is taken. *)
Lemma suggestion_is_first_best_witness :
  Suggester.similarity_score nat Suggester.prefix_score Suggester.nat_gt
    Suggester.insertion_sort ["bolox"] ["roma"; "bolo"; "bologna"]
  = Return [Suggester.mk_suggestion "bolox" "bolo" 4]
  ∧ "bolo" ∈ ["roma"; "bolo"; "bologna"]
  ∧ 4 = Suggester.prefix_score "bolox" "bolo"
  ∧ (∀ c, c ∈ ["roma"; "bolo"; "bologna"] →
       Suggester.nat_gt (Suggester.prefix_score "bolox" c) 4 = false)
  ∧ ∃ key : nat, unique ["roma"; "bolo"; "bologna"] !! key = Some "bolo"
      ∧ ∀ (j : nat) c, (j < key)%nat →
          unique ["roma"; "bolo"; "bologna"] !! j = Some c →
          Suggester.nat_gt 4 (Suggester.prefix_score "bolox" c) = true.
Proof.
  split; [compute_done|].
  apply (suggestion_is_first_best nat Suggester.prefix_score
           Suggester.nat_gt Suggester.insertion_sort insertion_sort_perm
           nat_gt_order ["bolox"] ["roma"; "bolo"; "bologna"]
           [Suggester.mk_suggestion "bolox" "bolo" 4]
           (Suggester.mk_suggestion "bolox" "bolo" 4));
    [reflexivity | constructor].
Defined.

(** ** Canonical names *)

Section CanonicalNames.
Import Canonicalizer.

Variable unidecode_table : N → option str.
Variable unicode_lower : str → str.

Local Abbreviation normalize_name :=
  (normalize_name unidecode_table unicode_lower).

Implicit Types (s name : str) (c : N).

Lemma lstrip_idemp s : lstrip (lstrip s) = lstrip s.
Proof.
  induction s as [|c s IH]; simpl; [done|].
  destruct (is_space c) eqn:Hc; [done|]. simpl. by rewrite Hc.
Qed.

Lemma lstrip_snoc s c :
  is_space c = false → lstrip (s ++ [c]) = lstrip s ++ [c].
Proof.
  intros Hc. induction s as [|d s IH]; simpl; [by rewrite Hc|].
  by destruct (is_space d).
Qed.

Lemma rstrip_cons c s :
  is_space c = false → rstrip (c :: s) = c :: rstrip s.
Proof.
  intros Hc. unfold rstrip.
  by rewrite reverse_cons, lstrip_snoc, reverse_app by done.
Qed.

Lemma rstrip_idemp s : rstrip (rstrip s) = rstrip s.
Proof. unfold rstrip. by rewrite reverse_involutive, lstrip_idemp. Qed.

(** Stripping on the right leaves a text stripped on the left as it is on
    the left. *)
Lemma lstrip_rstrip s : lstrip s = s → lstrip (rstrip s) = rstrip s.
Proof.
  destruct s as [|c s]; [done|]. simpl.
  destruct (is_space c) eqn:Hc.
  - intros Heq. assert (length (lstrip s) ≤ length s)%nat as Hle.
    { clear. induction s as [|d s IH]; simpl; [done|].
      destruct (is_space d); simpl; lia. }
    rewrite Heq in Hle. simpl in Hle. lia.
  - intros _. rewrite rstrip_cons by done. simpl. by rewrite Hc.
Qed.

Lemma strip_idemp s : strip (strip s) = strip s.
Proof.
  unfold strip. rewrite (lstrip_rstrip (lstrip s)) by apply lstrip_idemp.
  apply rstrip_idemp.
Qed.

Section AsciiTables.

Hypothesis table_is_ascii : ascii_table unidecode_table.

(** A second call only strips. *)
Lemma normalize_name_again name :
  normalize_name (Text (normalize_name (Text name)))
  = strip (normalize_name (Text name)).
Proof.
  destruct (normalize_name_shape unidecode_table unicode_lower
              table_is_ascii name) as (Hascii & Hlow & Hfree).
  by apply normalize_name_of_canonical.
Qed.

(** X16: a canonical name holds ASCII characters only, no upper-case
    letter and no punctuation character, whatever the name was. *)
Theorem canonical_name_shape name :
  ascii_only (normalize_name (Text name))
  ∧ lowercase (normalize_name (Text name))
  ∧ punctuation_free (normalize_name (Text name)).
Proof. by apply normalize_name_shape. Qed.

(** X17: the names that [normalize_name] leaves as they are are exactly
    the ASCII texts without upper-case letter, without punctuation and
    without whitespace at either end. *)
Theorem normalize_name_fixed_points s :
  normalize_name (Text s) = s ↔
  ascii_only s ∧ lowercase s ∧ punctuation_free s ∧ strip s = s.
Proof.
  split.
  - intros Hfix.
    destruct (normalize_name_shape unidecode_table unicode_lower
                table_is_ascii s) as (Hascii & Hlow & Hfree).
    rewrite Hfix in Hascii, Hlow, Hfree. repeat split; [done..|].
    pose proof (normalize_name_again s) as Htwice.
    rewrite !Hfix in Htwice. congruence.
  - intros (Hascii & Hlow & Hfree & Hstrip).
    rewrite (normalize_name_of_canonical unidecode_table unicode_lower)
      by done.
    done.
Qed.

(** X18: a name normalized twice is a fixed point: a third call, and any
    further one, changes nothing. *)
Theorem normalize_name_stable_after_two name :
  normalize_name (Text (normalize_name (Text (normalize_name (Text name)))))
  = normalize_name (Text (normalize_name (Text name))).
Proof.
  rewrite (normalize_name_again (normalize_name (Text name))).
  rewrite (normalize_name_again name).
  apply strip_idemp.
Qed.

End AsciiTables.

End CanonicalNames.

Lemma canonical_name_shape_witness :
  Canonicalizer.ascii_table Canonicalizer.grave_table
  ∧ Canonicalizer.ascii_only
      (Canonicalizer.normalize_name Canonicalizer.grave_table
         Canonicalizer.no_case_table
         (Canonicalizer.Text Canonicalizer.citta_d_aosta))
  ∧ Canonicalizer.lowercase
      (Canonicalizer.normalize_name Canonicalizer.grave_table
         Canonicalizer.no_case_table
         (Canonicalizer.Text Canonicalizer.citta_d_aosta))
  ∧ Canonicalizer.punctuation_free
      (Canonicalizer.normalize_name Canonicalizer.grave_table
         Canonicalizer.no_case_table
         (Canonicalizer.Text Canonicalizer.citta_d_aosta)).
Proof.
  split; [exact grave_table_ascii|].
  apply (canonical_name_shape Canonicalizer.grave_table
           Canonicalizer.no_case_table grave_table_ascii
           Canonicalizer.citta_d_aosta).
Defined.

Lemma normalize_name_fixed_points_witness :
  Canonicalizer.ascii_table Canonicalizer.grave_table
  ∧ (Canonicalizer.normalize_name Canonicalizer.grave_table
       Canonicalizer.no_case_table
       (Canonicalizer.Text (Canonicalizer.text "citta daosta"))
     = Canonicalizer.text "citta daosta"
     ↔ Canonicalizer.ascii_only (Canonicalizer.text "citta daosta")
       ∧ Canonicalizer.lowercase (Canonicalizer.text "citta daosta")
       ∧ Canonicalizer.punctuation_free (Canonicalizer.text "citta daosta")
       ∧ Canonicalizer.strip (Canonicalizer.text "citta daosta")
         = Canonicalizer.text "citta daosta").
Proof.
  split; [exact grave_table_ascii|].
  apply (normalize_name_fixed_points Canonicalizer.grave_table
           Canonicalizer.no_case_table grave_table_ascii
           (Canonicalizer.text "citta daosta")).
Defined.

Lemma normalize_name_stable_after_two_witness :
  Canonicalizer.ascii_table Canonicalizer.grave_table
  ∧ Canonicalizer.normalize_name Canonicalizer.grave_table
      Canonicalizer.no_case_table
      (Canonicalizer.Text
         (Canonicalizer.normalize_name Canonicalizer.grave_table
            Canonicalizer.no_case_table
            (Canonicalizer.Text
               (Canonicalizer.normalize_name Canonicalizer.grave_table
                  Canonicalizer.no_case_table
                  (Canonicalizer.Text (Canonicalizer.text "a !"))))))
    = Canonicalizer.normalize_name Canonicalizer.grave_table
        Canonicalizer.no_case_table
        (Canonicalizer.Text
           (Canonicalizer.normalize_name Canonicalizer.grave_table
              Canonicalizer.no_case_table
              (Canonicalizer.Text (Canonicalizer.text "a !")))).
Proof.
  split; [exact grave_table_ascii|].
  apply (normalize_name_stable_after_two Canonicalizer.grave_table
           Canonicalizer.no_case_table grave_table_ascii
           (Canonicalizer.text "a !")).
Defined.

(** ** The failures of the suggester *)

Section SuggesterFailures.
Import Suggester.

Variable Score : Type.
Variable WRatio : string → string → Score.
Variable score_gt : Score → Score → bool.
Variable sort_descending : list (suggestion Score) → list (suggestion Score).

(** X19: [similarity_score] raises exactly when the second column is empty
    or every name of the first column appears in the second; with a name
    to find a candidate for and a candidate to offer it returns a table. *)
Theorem similarity_score_raises_exactly (col1 col2 : list string) :
  (raises (similarity_score Score WRatio score_gt sort_descending col1 col2)
   ↔ col2 = [] ∨ ∀ x, x ∈ col1 → x ∈ col2)
  ∧ ((∃ out, similarity_score Score WRatio score_gt sort_descending col1 col2
             = Return out)
     ↔ col2 ≠ [] ∧ ∃ x, x ∈ col1 ∧ x ∉ col2).
Proof.
  pose proof (similarity_score_raises_iff Score WRatio score_gt
                sort_descending col1 col2) as Hraises.
  split; [done|].
  destruct (similarity_score Score WRatio score_gt sort_descending col1 col2)
    as [out|e] eqn:Hres.
  - assert (¬ (col2 = [] ∨ ∀ x, x ∈ col1 → x ∈ col2)) as Hno.
    { intros H. apply Hraises in H as [e ?]. done. }
    split; [|by eexists]. intros _. split; [tauto|].
    destruct (decide (Forall (λ x, x ∈ col2) col1)) as [Hall|Hex].
    + destruct Hno. right. by apply Forall_forall.
    + apply not_Forall_Exists in Hex; [|apply _].
      apply Exists_exists in Hex as (x & Hx & Hout). by exists x.
  - split; [by intros [out ?]|]. intros [Hne (x & Hx & Hout)].
    destruct (proj1 Hraises) as [?|Hall]; [by exists e | done |].
    by destruct Hout; apply Hall.
Qed.

End SuggesterFailures.

(** ** No exception on a name *)

Section CanonicalizerCalls.
Import Canonicalizer Dynamic.

Variable unidecode_table : N → option str.
Variable unicode_lower : str → str.

Local Abbreviation normalize_name :=
  (normalize_name unidecode_table unicode_lower).
Local Abbreviation normalize_name_call :=
  (normalize_name_call unidecode_table unicode_lower).

(** A step on a text gives a text, so that the next step finds one. *)
Lemma and_then_on_text (f g : str → str) (name : py_value) :
  and_then (on_text f name) (on_text g) = on_text (g ∘ f) name.
Proof. by destruct name. Qed.

Lemma normalize_name_call_steps (name : py_value) :
  normalize_name_call name =
    if isnull name then inr (PyText [])
    else on_text (λ s, normalize_name (Text s)) name.
Proof.
  unfold Dynamic.normalize_name_call. destruct (isnull name); [done|].
  by rewrite !and_then_on_text.
Qed.

(** C8: a missing name ([None], [NaN]) gives the empty text, the empty text
    gives the empty text, and a text never makes a statement of the
    function raise: every text gives a text, the one the four steps
    compute.  The function does raise, but only on a value that is neither
    missing nor a text. *)
Theorem normalize_name_never_raises :
  normalize_name_call PyNone = inr (PyText [])
  ∧ normalize_name_call PyNaN = inr (PyText [])
  ∧ normalize_name_call (PyText []) = inr (PyText [])
  ∧ (∀ s, normalize_name_call (PyText s)
          = inr (PyText (normalize_name (Text s))))
  ∧ (∀ name, (∃ e, normalize_name_call name = inl e) ↔ ∃ z, name = PyInt z).
Proof.
  split; [done|]. split; [done|]. split; [done|].
  split; [intros s; by rewrite normalize_name_call_steps|].
  intros name. rewrite normalize_name_call_steps.
  destruct name as [| |s|z]; simpl.
  - split; [by intros [e ?] | by intros [z ?]].
  - split; [by intros [e ?] | by intros [z ?]].
  - split; [by intros [e ?] | by intros [z ?]].
  - split; [by exists z | by exists AttributeError].
Qed.

End CanonicalizerCalls.
